(** * Empirical guess Hessians of pysisyphus

    A shallow embedding of [pysisyphus/optimizers/guess_hessians.py]: the four
    diagonal model Hessians (simple, Fischer-Almloef, Lindh, Swart) that are
    built from the primitive internal coordinates of a geometry.

    Numbers.  Python floats and numpy float64 values are idealised as real
    numbers ([R]): rounding, overflow and underflow are not part of the model.
    numpy's non-finite results (division by zero, a negative base under a
    fractional exponent) have no counterpart in [R]; every statement below
    about the value of a quotient or of a power carries the hypotheses
    (positive covalent radii, positive distances, a bonded central pair)
    under which numpy stays finite, so that nothing rests on the conventions
    of [R] at those points.  Where [fischer_guess] does leave that domain, by
    a negative bond count, a second embedding keeps numpy's nan.  Strict
    inequalities between computed floats are not stated where rounding or
    underflow of [exp] can turn them into equalities.

    Exceptions.  Functions that can raise return a [result]; the exceptions
    that matter here are [KeyError] (a dict lookup), [IndexError] (an array
    subscript) and [ValueError] (tuple unpacking, [squareform]'s size check).

    Atom indices are natural numbers: Python's negative subscripts are not
    modelled. *)

From Stdlib Require Import Reals Lra Lia ZArith.
From stdpp Require Import base strings gmap list.

Open Scope R_scope.

(** ** Exceptions and the error monad *)

Inductive pykey : Type :=
  | KStr (s : string)
  | KInt (n : nat)
  | KTuple (a b : nat).

Inductive exn : Type :=
  | KeyError (k : pykey)
  | IndexError
  | ValueError.

Inductive result (A : Type) : Type :=
  | Ok (a : A)
  | Raise (e : exn).
Arguments Ok {A} a.
Arguments Raise {A} e.

#[global] Instance result_ret : MRet result := @Ok.
#[global] Instance result_bind : MBind result :=
  λ A B f m, match m with Ok a => f a | Raise e => Raise e end.

(** A [for] loop that threads an accumulator and may raise. *)
Fixpoint foldlM {A S : Type} (f : S → A → result S) (l : list A) (s : S)
  : result S :=
  match l with
  | [] => Ok s
  | x :: l' => s' ← f s x; foldlM f l' s'
  end.

(** ** Python strings: [str.lower] on ASCII symbols *)

Definition ascii_lower (c : Ascii.ascii) : Ascii.ascii :=
  let n := Ascii.nat_of_ascii c in
  if (65 <=? n)%nat && (n <=? 90)%nat then Ascii.ascii_of_nat (n + 32) else c.

Fixpoint lower (s : string) : string :=
  match s with
  | EmptyString => EmptyString
  | String c t => String (ascii_lower c) (lower t)
  end.

(** [x in l] for a list of strings. *)
Definition str_in (x : string) (l : list string) : bool :=
  bool_decide (x ∈ l).

(** ** itertools, numpy and scipy primitives *)

Section Arrays.
Context {A : Type}.

(** [itertools.combinations(l, 2)]: all pairs [(l[i], l[j])], [i < j], in
    lexicographic order of [(i, j)]. *)
Fixpoint combinations2 (l : list A) : list (A * A) :=
  match l with
  | [] => []
  | x :: t => map (pair x) t ++ combinations2 t
  end.

(** [l[lo:hi]] *)
Definition slice (lo hi : nat) (l : list A) : list A :=
  take (hi - lo) (drop lo l).

(** [M[a]] on a numpy array: out of range raises. *)
Definition getitem (M : list A) (a : nat) : result A :=
  match M !! a with
  | Some x => Ok x
  | None => Raise IndexError
  end.

(** Offset of row [i] in the condensed form of a [d]-point matrix, as the
    fill loop of [squareform] advances through the vector: row [0] takes
    [d - 1] entries, row [1] the next [d - 2], and so on. *)
Fixpoint condensed_offset (d i : nat) : nat :=
  match i with
  | O => O
  | S i' => (d - 1) + condensed_offset (d - 1) i'
  end.

Definition condensed_index (d i j : nat) : nat :=
  (condensed_offset d i + (j - i - 1))%nat.

Definition ceil_sqrt (k : nat) : nat :=
  let s := Nat.sqrt k in if (s * s =? k)%nat then s else S s.

(** Dimension that [squareform] derives from the length of a condensed
    vector: an empty vector gives a 1 x 1 matrix, otherwise the length must
    be a binomial coefficient [d choose 2]. *)
Definition squareform_dim (m : nat) : result nat :=
  if (m =? 0)%nat then Ok 1%nat
  else
    let d := ceil_sqrt (m * 2) in
    if (d * (d - 1) =? m * 2)%nat then Ok d else Raise ValueError.

(** [scipy.spatial.distance.squareform] on a condensed vector: a symmetric
    [d x d] matrix with the zero of the dtype on the diagonal. *)
Definition squareform (zero : A) (X : list A) : result (list (list A)) :=
  d ← squareform_dim (length X);
  mret (map (λ i,
         map (λ j,
           if decide (i = j) then zero
           else default zero
                  (X !! condensed_index d (i `min` j) (i `max` j)))
           (seq 0 d))
         (seq 0 d)).
End Arrays.

(** [M[a, b]] on a two-dimensional numpy array. *)
Definition getitem2 {A : Type} (M : list (list A)) (a b : nat) : result A :=
  row ← getitem M a; getitem row b.

Definition R3 : Type := (R * R * R)%type.

Definition euclidean (p q : R3) : R :=
  let '(x1, y1, z1) := p in
  let '(x2, y2, z2) := q in
  sqrt ((x1 - x2) * (x1 - x2) + (y1 - y2) * (y1 - y2) + (z1 - z2) * (z1 - z2)).

(** [scipy.spatial.distance.pdist]: condensed Euclidean distance vector. *)
Definition pdist (X : list R3) : list R :=
  map (λ pq, euclidean pq.1 pq.2) (combinations2 X).

(** [x <= y] on floats, as a boolean. *)
Definition Rleb (x y : R) : bool := if Rle_dec x y then true else false.

(** [row.sum()] of a boolean row: the number of [True] entries. *)
Definition bool_sum (row : list bool) : Z :=
  Z.of_nat (length (filter (λ b : bool, b = true) row)).

(** [x ** y] on float64 where the result is finite: a positive base gives
    [exp (y * ln x)], a zero base gives [1] under a zero exponent and [0]
    under a positive one.  A zero base under a negative exponent ([inf] in
    numpy) and a negative base under a fractional exponent ([nan]) are outside
    the model; the values this definition has there are never relied on. *)
Definition np_power (x y : R) : R :=
  if Req_dec_T x 0 then (if Req_dec_T y 0 then 1 else 0) else Rpower x y.

(** [np.diagflat(v)]: the square matrix with [v] on the diagonal. *)
Definition diagflat (v : list R) : list (list R) :=
  let n := length v in
  map (λ i, map (λ j, if decide (i = j) then default 0 (v !! i) else 0)
              (seq 0 n))
      (seq 0 n).

(** Entry [(i, j)] of a matrix, and its shape. *)
Definition entry (H : list (list R)) (i j : nat) : R :=
  default 0 (H !! i ≫= λ row, row !! j).

Definition has_shape {A : Type} (H : list (list A)) (m n : nat) : Prop :=
  length H = m ∧ Forall (λ row, length row = n) H.

(** ** Data model *)

(** Modelled from the spec: the Geometry class (pysisyphus.Geometry) is not
    among the sources.  A geometry is an ordered sequence of atoms, each an
    element symbol with a Cartesian position; [atoms] and [coords3d] are the
    two attributes the guess functions read. *)
Record Atom : Type := { symbol : string; position : R3 }.

(** A primitive internal coordinate carries its tuple of atom indices:
    two for a bond, three for a bend (centre in the middle), four for a
    dihedral (central pair at positions 1 and 2). *)
Record Primitive : Type := { inds : list nat }.

(** Modelled from the spec: the internal-coordinate object
    (pysisyphus.InternalCoordinates.RedundantCoords) is not among the sources.
    It holds the bond factor and the flat, ordered primitive collection; its
    [dihedrals] view is the primitives with four indices.  ([fischer_guess]
    also reads the [bonds] view but never uses it.) *)
Record RedundantCoords : Type :=
  { bond_factor : R; _prim_coords : list Primitive }.

Definition dihedrals (ic : RedundantCoords) : list Primitive :=
  filter (λ pc, length (inds pc) = 4%nat) (_prim_coords ic).

Record Geometry : Type :=
  { atom_list : list Atom; internal : RedundantCoords }.

Definition atoms (geom : Geometry) : list string :=
  map symbol (atom_list geom).

Definition coords3d (geom : Geometry) : list R3 :=
  map position (atom_list geom).

(** ** guess_hessians.py *)

(** [simple_guess]: constant force constants selected by the number of
    indices of each primitive. *)
Definition h_dict (n : nat) : result R :=
  match n with
  | 2%nat => Ok 0.5
  | 3%nat => Ok 0.2
  | 4%nat => Ok 0.1
  | _ => Raise (KeyError (KInt n))
  end.

Definition simple_guess (geom : Geometry) : result (list (list R)) :=
  h_diag ← mapM (λ prim, h_dict (length (inds prim)))
                (_prim_coords (internal geom));
  mret (diagflat h_diag).

(** [lindh_guess.get_alpha] and its [first_period = "h he".split()]. *)
Definition first_period : list string := ["h"; "he"]%string.

Definition get_alpha (atom1 atom2 : string) : R :=
  if str_in atom1 first_period && str_in atom2 first_period then 1
  else if str_in atom1 first_period || str_in atom2 first_period then 0.3949
  else 0.28.

Definition lindh_k_dict (n : nat) : result R :=
  match n with
  | 2%nat => Ok 0.45
  | 3%nat => Ok 0.15
  | 4%nat => Ok 0.005
  | _ => Raise (KeyError (KInt n))
  end.

Definition swart_k_dict (n : nat) : result R :=
  match n with
  | 2%nat => Ok 0.35
  | 3%nat => Ok 0.15
  | 4%nat => Ok 0.005
  | _ => Raise (KeyError (KInt n))
  end.

(** The bond-count loop of [fischer_guess]: for every central pair of a
    dihedral, the two row sums of the bond matrix minus two. *)
Definition tors_atom_bonds_loop (bond_mat : list (list bool))
    (central_atoms : list (list nat)) : result (gmap (nat * nat) Z) :=
  foldlM (λ tors_atom_bonds ab,
            match ab with
            | [a; b] =>
                row_a ← getitem bond_mat a;
                row_b ← getitem bond_mat b;
                let bond_sum := (bool_sum row_a + bool_sum row_b - 2)%Z in
                mret (<[(a, b) := bond_sum]> tors_atom_bonds)
            | _ => Raise ValueError
            end)
         central_atoms ∅.

Section FischerClosures.
Variables dist_mat pair_cov_radii_mat : list (list R).
Variable tors_atom_bonds : gmap (nat * nat) Z.

Definition h_bond (bond : Primitive) : result R :=
  match inds bond with
  | [a; b] =>
      r_ab ← getitem2 dist_mat a b;
      r_ab_cov ← getitem2 pair_cov_radii_mat a b;
      mret (0.3601 * exp (-1.944 * (r_ab - r_ab_cov)))
  | _ => Raise ValueError
  end.

Definition h_bend (bend : Primitive) : result R :=
  match inds bend with
  | [b; a; c] =>
      r_ab ← getitem2 dist_mat a b;
      r_ac ← getitem2 dist_mat a c;
      r_ab_cov ← getitem2 pair_cov_radii_mat a b;
      r_ac_cov ← getitem2 pair_cov_radii_mat a c;
      mret (0.089 + 0.11 / np_power (r_ab_cov * r_ac_cov) (-0.42)
                    * exp (-0.44 * (r_ab + r_ac - r_ab_cov - r_ac_cov)))
  | _ => Raise ValueError
  end.

Definition h_dihedral (dihedral : Primitive) : result R :=
  match inds dihedral with
  | [c; a; b; d] =>
      r_ab ← getitem2 dist_mat a b;
      r_ab_cov ← getitem2 pair_cov_radii_mat a b;
      bond_sum ← match tors_atom_bonds !! (a, b) with
                 | Some s => Ok s
                 | None => Raise (KeyError (KTuple a b))
                 end;
      mret (0.0015 + 14.0 * np_power (IZR bond_sum) 0.57
                     / np_power (r_ab * r_ab_cov) 4.0
                     * exp (-2.85 * (r_ab - r_ab_cov)))
  | _ => Raise ValueError
  end.

Definition h_funcs (n : nat) : result (Primitive → result R) :=
  match n with
  | 2%nat => Ok h_bond
  | 3%nat => Ok h_bend
  | 4%nat => Ok h_dihedral
  | _ => Raise (KeyError (KInt n))
  end.
End FischerClosures.

(** Modelled from the spec: [pysisyphus.elem_data.COVALENT_RADII], the static
    mapping from (lower-case) element symbol to covalent radius, is not among
    the sources; every function that consults it takes it from the context. *)
Class RadiusTable : Type := COVALENT_RADII : gmap string R.

Section GuessHessians.
Context {table : RadiusTable}.

Definition get_pair_covalent_radii (geom : Geometry) : result (list R) :=
  let atoms := map lower (atoms geom) in
  cov_radii ← mapM (λ a, match COVALENT_RADII !! a with
                          | Some r => Ok r
                          | None => Raise (KeyError (KStr a))
                          end) atoms;
  mret (map (λ rr, rr.1 + rr.2) (combinations2 cov_radii)).

(** [squareform(cdm <= pair_cov_radii * bond_factor)] *)
Definition bond_matrix (geom : Geometry) (cdm pair_cov_radii : list R)
  : result (list (list bool)) :=
  squareform false
    (zip_with Rleb cdm
       (map (λ r, r * bond_factor (internal geom)) pair_cov_radii)).

Definition fischer_guess (geom : Geometry) : result (list (list R)) :=
  let cdm := pdist (coords3d geom) in
  pair_cov_radii ← get_pair_covalent_radii geom;
  let dihedrals := dihedrals (internal geom) in
  let central_atoms := map (λ dh, slice 1 3 (inds dh)) dihedrals in
  bond_mat ← bond_matrix geom cdm pair_cov_radii;
  tors_atom_bonds ← tors_atom_bonds_loop bond_mat central_atoms;
  dist_mat ← squareform 0 cdm;
  pair_cov_radii_mat ← squareform 0 pair_cov_radii;
  h_diag ← mapM (λ primitive,
                   f ← h_funcs dist_mat pair_cov_radii_mat tors_atom_bonds
                         (length (inds primitive));
                   f primitive)
                (_prim_coords (internal geom));
  mret (diagflat h_diag).

Definition lindh_guess (geom : Geometry) : result (list (list R)) :=
  let atoms := map lower (atoms geom) in
  let alphas := map (λ aa, get_alpha aa.1 aa.2) (combinations2 atoms) in
  pair_cov_radii ← get_pair_covalent_radii geom;
  let cdm := pdist (coords3d geom) in
  rhos ← squareform 0
           (zip_with (λ alpha x, exp (alpha * x)) alphas
              (zip_with (λ p c, p ^ 2 - c ^ 2) pair_cov_radii cdm));
  k_diag ← mapM (λ primitive,
                   rho_product ←
                     foldlM (λ rho_product i,
                               match slice i (i + 2) (inds primitive) with
                               | [i1; i2] =>
                                   rho ← getitem2 rhos i1 i2;
                                   mret (rho_product * rho)
                               | _ => Raise ValueError
                               end)
                            (seq 0 (length (inds primitive) - 1)) 1;
                   k ← lindh_k_dict (length (inds primitive));
                   mret (k * rho_product))
                (_prim_coords (internal geom));
  mret (diagflat k_diag).

Definition swart_guess (geom : Geometry) : result (list (list R)) :=
  pair_cov_radii ← get_pair_covalent_radii geom;
  let cdm := pdist (coords3d geom) in
  rhos ← squareform 0
           (zip_with (λ c p, exp (- c / p + 1)) cdm pair_cov_radii);
  k_diag ← mapM (λ primitive,
                   rho_product ←
                     foldlM (λ rho_product i,
                               match slice i (i + 2) (inds primitive) with
                               | [i1; i2] =>
                                   rho ← getitem2 rhos i1 i2;
                                   mret (rho_product * rho)
                               | _ => Raise ValueError
                               end)
                            (seq 0 (length (inds primitive) - 1)) 1;
                   k ← swart_k_dict (length (inds primitive));
                   mret (k * rho_product))
                (_prim_coords (internal geom));
  mret (diagflat k_diag).
End GuessHessians.

(** ** [fischer_guess] with numpy's nan

    In the real-valued embedding [x ** y] has no faithful value at a negative
    base under a fractional exponent, where numpy returns [nan].
    [fischer_guess] reaches that point when the bond count of a dihedral is
    negative.  The definitions below are [fischer_guess] once more, line by
    line, with the force constants in the reals extended by [nan]; [nan]
    propagates through the arithmetic that follows the power.  (Infinities
    are still outside the model.) *)

Inductive np_float : Type :=
  | Finite (r : R)
  | NaN.

(** A unary or binary real expression applied to values that may be [nan]. *)
Definition np_lift1 (f : R → R) (x : np_float) : np_float :=
  match x with
  | Finite a => Finite (f a)
  | NaN => NaN
  end.

Definition np_lift2 (f : R → R → R) (x y : np_float) : np_float :=
  match x, y with
  | Finite a, Finite b => Finite (f a b)
  | _, _ => NaN
  end.

(** [x ** y] on float64: as [np_power] for a base that is not negative; a
    negative base gives the integral power under an integral exponent and
    [nan] otherwise. *)
Definition np_power_nan (x y : R) : np_float :=
  if Rlt_dec x 0 then
    if Req_dec_T (frac_part y) 0 then Finite (powerRZ x (Int_part y)) else NaN
  else Finite (np_power x y).

(** [np.diagflat] on such values. *)
Definition diagflat_nan (v : list np_float) : list (list np_float) :=
  let n := length v in
  map (λ i, map (λ j, if decide (i = j) then default (Finite 0) (v !! i)
                      else Finite 0)
              (seq 0 n))
      (seq 0 n).


Section FischerClosuresNan.
Variables dist_mat pair_cov_radii_mat : list (list R).
Variable tors_atom_bonds : gmap (nat * nat) Z.

Definition h_bond_nan (bond : Primitive) : result np_float :=
  match inds bond with
  | [a; b] =>
      r_ab ← getitem2 dist_mat a b;
      r_ab_cov ← getitem2 pair_cov_radii_mat a b;
      mret (Finite (0.3601 * exp (-1.944 * (r_ab - r_ab_cov))))
  | _ => Raise ValueError
  end.

Definition h_bend_nan (bend : Primitive) : result np_float :=
  match inds bend with
  | [b; a; c] =>
      r_ab ← getitem2 dist_mat a b;
      r_ac ← getitem2 dist_mat a c;
      r_ab_cov ← getitem2 pair_cov_radii_mat a b;
      r_ac_cov ← getitem2 pair_cov_radii_mat a c;
      mret (np_lift1
              (λ power,
                 0.089 + 0.11 / power
                         * exp (-0.44 * (r_ab + r_ac - r_ab_cov - r_ac_cov)))
              (np_power_nan (r_ab_cov * r_ac_cov) (-0.42)))
  | _ => Raise ValueError
  end.

Definition h_dihedral_nan (dihedral : Primitive) : result np_float :=
  match inds dihedral with
  | [c; a; b; d] =>
      r_ab ← getitem2 dist_mat a b;
      r_ab_cov ← getitem2 pair_cov_radii_mat a b;
      bond_sum ← match tors_atom_bonds !! (a, b) with
                 | Some s => Ok s
                 | None => Raise (KeyError (KTuple a b))
                 end;
      mret (np_lift2
              (λ power_sum power_4,
                 0.0015 + 14.0 * power_sum / power_4
                          * exp (-2.85 * (r_ab - r_ab_cov)))
              (np_power_nan (IZR bond_sum) 0.57)
              (np_power_nan (r_ab * r_ab_cov) 4.0))
  | _ => Raise ValueError
  end.

Definition h_funcs_nan (n : nat) : result (Primitive → result np_float) :=
  match n with
  | 2%nat => Ok h_bond_nan
  | 3%nat => Ok h_bend_nan
  | 4%nat => Ok h_dihedral_nan
  | _ => Raise (KeyError (KInt n))
  end.
End FischerClosuresNan.

Section GuessHessiansNan.
Context {table : RadiusTable}.

Definition fischer_guess_nan (geom : Geometry)
  : result (list (list np_float)) :=
  let cdm := pdist (coords3d geom) in
  pair_cov_radii ← get_pair_covalent_radii geom;
  let dihedrals := dihedrals (internal geom) in
  let central_atoms := map (λ dh, slice 1 3 (inds dh)) dihedrals in
  bond_mat ← bond_matrix geom cdm pair_cov_radii;
  tors_atom_bonds ← tors_atom_bonds_loop bond_mat central_atoms;
  dist_mat ← squareform 0 cdm;
  pair_cov_radii_mat ← squareform 0 pair_cov_radii;
  h_diag ← mapM (λ primitive,
                   f ← h_funcs_nan dist_mat pair_cov_radii_mat tors_atom_bonds
                         (length (inds primitive));
                   f primitive)
                (_prim_coords (internal geom));
  mret (diagflat_nan h_diag).
End GuessHessiansNan.

(** ** Vocabulary of the statements *)

Definition default_atom : Atom := {| symbol := ""; position := (0, 0, 0) |}.

Definition natoms (geom : Geometry) : nat := length (atom_list geom).

Definition atom_at (geom : Geometry) (i : nat) : Atom :=
  default default_atom (atom_list geom !! i).

(** Interatomic distance [r_ij]. *)
Definition distance (geom : Geometry) (i j : nat) : R :=
  euclidean (position (atom_at geom i)) (position (atom_at geom j)).

(** The diagonal of a matrix. *)
Definition diagonal (H : list (list R)) : list R :=
  map (λ k, entry H k k) (seq 0 (length H)).

(** A square matrix of size [m] that vanishes off the diagonal, and one whose
    diagonal is strictly positive. *)
Definition square_diagonal (m : nat) (H : list (list R)) : Prop :=
  has_shape H m m ∧
  ∀ i j, (i < m)%nat → (j < m)%nat → i ≠ j → entry H i j = 0.




(** Index tuples as the data model has them: two to four indices, each the
    index of an atom of the geometry, no atom repeated. *)
Definition well_formed_primitive (n : nat) (p : Primitive) : Prop :=
  (2 ≤ length (inds p) ≤ 4)%nat ∧ Forall (λ i, (i < n)%nat) (inds p) ∧
  NoDup (inds p).

Definition well_formed (geom : Geometry) : Prop :=
  Forall (well_formed_primitive (natoms geom)) (_prim_coords (internal geom)).


(** Product of a pair function over the consecutive pairs of an index
    tuple. *)
Fixpoint chain_product (rho : nat → nat → R) (l : list nat) : R :=
  match l with
  | i :: (j :: _) as t => rho i j * chain_product rho t
  | _ => 1
  end.

(** The chain-product scheme: [k_type] times the chain product of [rho], on
    the diagonal. *)
Definition chain_product_guess (k_type : nat → R) (rho : nat → nat → R)
    (geom : Geometry) : list (list R) :=
  diagflat (map (λ p, k_type (length (inds p)) * chain_product rho (inds p))
                (_prim_coords (internal geom))).

Definition simple_k_type (n : nat) : R :=
  match n with 2%nat => 0.5 | 3%nat => 0.2 | _ => 0.1 end.

Definition lindh_k_type (n : nat) : R :=
  match n with 2%nat => 0.45 | 3%nat => 0.15 | _ => 0.005 end.

Definition swart_k_type (n : nat) : R :=
  match n with 2%nat => 0.35 | 3%nat => 0.15 | _ => 0.005 end.

(** An element of the first period: hydrogen or helium, in any letter case. *)
Definition is_first_period (sym : string) : bool :=
  bool_decide (lower sym = "h"%string ∨ lower sym = "he"%string).

(** Lindh's exponent by the number of first-period atoms of the pair. *)
Definition alpha_of_pair (sym1 sym2 : string) : R :=
  match is_first_period sym1, is_first_period sym2 with
  | true, true => 1.0
  | true, false | false, true => 0.3949
  | false, false => 0.28
  end.

(** Two element symbols that differ at most in the case of their letters,
    and two geometries that differ at most in that way. *)
Definition same_up_to_case (s1 s2 : string) : Prop := lower s1 = lower s2.

Definition case_variant (g1 g2 : Geometry) : Prop :=
  internal g1 = internal g2 ∧ coords3d g1 = coords3d g2 ∧
  Forall2 same_up_to_case (atoms g1) (atoms g2).

Section TableVocabulary.
Context {table : RadiusTable}.

(** Every tabulated radius is a positive length. *)
Definition radii_positive : Prop :=
  ∀ s r, COVALENT_RADII !! s = Some r → 0 < r.

(** Every element of the geometry is in the table (looked up in lower
    case). *)
Definition known_elements (geom : Geometry) : Prop :=
  Forall (λ a, is_Some (COVALENT_RADII !! lower (symbol a)))
         (atom_list geom).

Definition has_unknown_element (geom : Geometry) : Prop :=
  Exists (λ a, COVALENT_RADII !! lower (symbol a) = None) (atom_list geom).

Definition cov_radius (a : Atom) : R :=
  default 0 (COVALENT_RADII !! lower (symbol a)).

(** Covalent-radius sum [r_cov,ij] of a pair of atoms. *)
Definition pair_cov_radius (geom : Geometry) (i j : nat) : R :=
  cov_radius (atom_at geom i) + cov_radius (atom_at geom j).

(** The connectivity decision for two atoms. *)
Definition bonded (geom : Geometry) (i j : nat) : Prop :=
  i ≠ j ∧
  distance geom i j <= bond_factor (internal geom) * pair_cov_radius geom i j.

Definition bondedb (geom : Geometry) (i j : nat) : bool :=
  bool_decide (i ≠ j) &&
  Rleb (distance geom i j)
       (bond_factor (internal geom) * pair_cov_radius geom i j).

(** Number of bonds at atom [a], and the same count leaving out the bond
    to [b]. *)
Definition degree (geom : Geometry) (a : nat) : Z :=
  Z.of_nat (length (filter (λ j, bondedb geom a j = true)
                           (seq 0 (natoms geom)))).

Definition degree_without (geom : Geometry) (a b : nat) : Z :=
  Z.of_nat (length (filter (λ j, j ≠ b ∧ bondedb geom a j = true)
                           (seq 0 (natoms geom)))).

(** The central pair of every dihedral is a bond of the bond matrix. *)
Definition central_pairs_bonded (geom : Geometry) : Prop :=
  ∀ c a b d, {| inds := [c; a; b; d] |} ∈ _prim_coords (internal geom) →
             bonded geom a b.

Definition lindh_rho (geom : Geometry) (i j : nat) : R :=
  exp (alpha_of_pair (symbol (atom_at geom i)) (symbol (atom_at geom j))
       * (pair_cov_radius geom i j ^ 2 - distance geom i j ^ 2)).

Definition swart_rho (geom : Geometry) (i j : nat) : R :=
  exp (1 - distance geom i j / pair_cov_radius geom i j).

(** Closed forms of the Fischer-Almloef force constants, as the source
    evaluates them at the entries of its matrices. *)
Definition fischer_value (geom : Geometry) (p : Primitive) : R :=
  match inds p with
  | [a; b] =>
      0.3601 * exp (-1.944 * (distance geom a b - pair_cov_radius geom a b))
  | [b; a; c] =>
      0.089 + 0.11 / np_power (pair_cov_radius geom a b
                               * pair_cov_radius geom a c) (-0.42)
              * exp (-0.44 * (distance geom a b + distance geom a c
                              - pair_cov_radius geom a b
                              - pair_cov_radius geom a c))
  | [c; a; b; d] =>
      0.0015 + 14.0 * np_power (IZR (degree geom a + degree geom b - 2)) 0.57
               / np_power (distance geom a b * pair_cov_radius geom a b) 4.0
               * exp (-2.85 * (distance geom a b - pair_cov_radius geom a b))
  | _ => 0
  end.
(** The closed forms with numpy's nan kept. *)
Definition fischer_value_nan (geom : Geometry) (p : Primitive) : np_float :=
  match inds p with
  | [a; b] =>
      Finite (0.3601
              * exp (-1.944 * (distance geom a b - pair_cov_radius geom a b)))
  | [b; a; c] =>
      np_lift1
        (λ power,
           0.089 + 0.11 / power
                   * exp (-0.44 * (distance geom a b + distance geom a c
                                   - pair_cov_radius geom a b
                                   - pair_cov_radius geom a c)))
        (np_power_nan (pair_cov_radius geom a b * pair_cov_radius geom a c)
                      (-0.42))
  | [c; a; b; d] =>
      np_lift2
        (λ power_sum power_4,
           0.0015 + 14.0 * power_sum / power_4
                    * exp (-2.85 * (distance geom a b
                                    - pair_cov_radius geom a b)))
        (np_power_nan (IZR (degree geom a + degree geom b - 2)) 0.57)
        (np_power_nan (distance geom a b * pair_cov_radius geom a b) 4.0)
  | _ => Finite 0
  end.
End TableVocabulary.

(** ** Vocabulary of the further properties *)

(** Index tuples that only name atoms of the geometry: two to four indices,
    each in range, repetitions allowed. *)
Definition in_range_primitive (n : nat) (p : Primitive) : Prop :=
  (2 ≤ length (inds p) ≤ 4)%nat ∧ Forall (λ i, (i < n)%nat) (inds p).

(** The same geometry with another primitive set. *)
Definition with_primitives (prims : list Primitive) (geom : Geometry)
  : Geometry :=
  {| atom_list := atom_list geom;
     internal := {| bond_factor := bond_factor (internal geom);
                    _prim_coords := prims |} |}.

(** The same geometry with another bond factor. *)
Definition with_bond_factor (factor : R) (geom : Geometry) : Geometry :=
  {| atom_list := atom_list geom;
     internal := {| bond_factor := factor;
                    _prim_coords := _prim_coords (internal geom) |} |}.

(** Every index tuple read in the opposite direction. *)
Definition reverse_primitive (p : Primitive) : Primitive :=
  {| inds := reverse (inds p) |}.

Definition reverse_tuples (geom : Geometry) : Geometry :=
  with_primitives (map reverse_primitive (_prim_coords (internal geom))) geom.

(** Rigid translation of all atoms by a vector. *)
Definition translate_point (t p : R3) : R3 :=
  let '(tx, ty, tz) := t in
  let '(x, y, z) := p in
  (x + tx, y + ty, z + tz).

Definition translate (t : R3) (geom : Geometry) : Geometry :=
  {| atom_list :=
       map (λ a, {| symbol := symbol a;
                    position := translate_point t (position a) |})
           (atom_list geom);
     internal := internal geom |}.

(** The index tuples [fischer_guess] can evaluate: a bond or a bend whose
    atoms are in range with the centre distinct from its partners, or a
    dihedral whose central pair is in range and distinct (its terminal
    indices are never read). *)
Definition fischer_readable (n : nat) (p : Primitive) : Prop :=
  match inds p with
  | [a; b] => (a < n)%nat ∧ (b < n)%nat ∧ a ≠ b
  | [b; a; c] => (a < n)%nat ∧ (b < n)%nat ∧ (c < n)%nat ∧ a ≠ b ∧ a ≠ c
  | [_; a; b; _] => (a < n)%nat ∧ (b < n)%nat ∧ a ≠ b
  | _ => False
  end.

(** Two primitives that differ at most in the terminal atoms of a
    dihedral. *)
Definition same_up_to_terminals (p q : Primitive) : Prop :=
  inds p = inds q ∨
  ∃ c d c' d' a b, inds p = [c; a; b; d] ∧ inds q = [c'; a; b; d'].

(** The central pairs that [fischer_guess] collects from the dihedrals. *)
Definition central_atoms (geom : Geometry) : list (list nat) :=
  map (λ dh, slice 1 3 (inds dh)) (dihedrals (internal geom)).

(** An index tuple that names the same atom twice in a row. *)
Definition adjacent_repeat (l : list nat) : Prop :=
  ∃ pre a post, l = pre ++ a :: a :: post.

(** The inner loop of [lindh_guess] and [swart_guess] as a recursion over
    the index tuple: one matrix read per consecutive pair, left to right. *)
Fixpoint chain_loop (rhos : list (list R)) (l : list nat) (rho_product : R)
  : result R :=
  match l with
  | i1 :: (i2 :: _) as t =>
      rho ← getitem2 rhos i1 i2;
      chain_loop rhos t (rho_product * rho)
  | _ => Ok rho_product
  end.

(** A pair function with the zero diagonal that [squareform] gives it. *)
Definition off_diagonal (rho : nat → nat → R) (i j : nat) : R :=
  if decide (i = j) then 0 else rho i j.

(** ** Sample data *)

(** A small radius table (lengths in Bohr) for the examples. *)
Definition sample_radii : RadiusTable :=
  ({[ "h"%string := 0.6; "n"%string := 1.3; "o"%string := 1.2 ]}
     : gmap string R).

(** Water: two O-H bonds and the H-O-H bend. *)
Definition water : Geometry :=
  {| atom_list :=
       [ {| symbol := "O"; position := (0, 0, 0) |};
         {| symbol := "H"; position := (1.8, 0, 0) |};
         {| symbol := "H"; position := (-0.5, 1.7, 0) |} ];
     internal :=
       {| bond_factor := 1.3;
          _prim_coords :=
            [ {| inds := [0; 1]%nat |}; {| inds := [0; 2]%nat |};
              {| inds := [1; 0; 2]%nat |} ] |} |}.

Definition water_lowercase : Geometry :=
  {| atom_list :=
       [ {| symbol := "o"; position := (0, 0, 0) |};
         {| symbol := "h"; position := (1.8, 0, 0) |};
         {| symbol := "h"; position := (-0.5, 1.7, 0) |} ];
     internal := internal water |}.

(** Hydroxylamine-like H2N-OH: four bonds, four bends and two dihedrals
    about the N-O bond. *)
Definition hydroxylamine : Geometry :=
  {| atom_list :=
       [ {| symbol := "N"; position := (0, 0, 0) |};
         {| symbol := "O"; position := (2.5, 0, 0) |};
         {| symbol := "H"; position := (-0.5, 1.5, 1) |};
         {| symbol := "H"; position := (-0.5, -1.5, 1) |};
         {| symbol := "H"; position := (3, 1.5, -0.5) |} ];
     internal :=
       {| bond_factor := 1.3;
          _prim_coords :=
            [ {| inds := [0; 1]%nat |}; {| inds := [0; 2]%nat |};
              {| inds := [0; 3]%nat |}; {| inds := [1; 4]%nat |};
              {| inds := [2; 0; 3]%nat |}; {| inds := [2; 0; 1]%nat |};
              {| inds := [3; 0; 1]%nat |}; {| inds := [0; 1; 4]%nat |};
              {| inds := [2; 0; 1; 4]%nat |};
              {| inds := [3; 0; 1; 4]%nat |} ] |} |}.


(** A geometry with an element that no table lists. *)
Definition with_unknown : Geometry :=
  {| atom_list :=
       [ {| symbol := "O"; position := (0, 0, 0) |};
         {| symbol := "Xx"; position := (1.8, 0, 0) |} ];
     internal :=
       {| bond_factor := 1.3; _prim_coords := [ {| inds := [0; 1]%nat |} ] |} |}.

(** Water with one O-H bond stretched to the sum of the covalent radii and the
    other far beyond it. *)
Definition water_stretched : Geometry :=
  {| atom_list :=
       [ {| symbol := "O"; position := (0, 0, 0) |};
         {| symbol := "H"; position := (1.8, 0, 0) |};
         {| symbol := "H"; position := (0, 4, 0) |} ];
     internal := internal water |}.

(** Water with primitive sets that the data model excludes: a bond from an
    atom to itself, a tuple of five indices, indices that are no atoms. *)
Definition water_self_bond : Geometry :=
  with_primitives [ {| inds := [0; 0]%nat |} ] water.

Definition water_five_tuple : Geometry :=
  with_primitives
    [ {| inds := [0; 1]%nat |}; {| inds := [0; 1; 2; 1; 0]%nat |} ] water.

Definition water_bad_bond : Geometry :=
  with_primitives [ {| inds := [0; 1]%nat |}; {| inds := [0; 7]%nat |} ] water.

Definition water_bad_bend : Geometry :=
  with_primitives
    [ {| inds := [0; 1]%nat |}; {| inds := [1; 0; 7]%nat |} ] water.

Definition water_bad_dihedral : Geometry :=
  with_primitives
    [ {| inds := [0; 1; 2; 1; 0]%nat |}; {| inds := [0; 1; 9; 2]%nat |} ]
    water.

(** The primitives of the hydroxylamine sample with other terminal indices in
    the dihedrals, some of them no atoms. *)
Definition hydroxylamine_other_terminals : list Primitive :=
  [ {| inds := [0; 1]%nat |}; {| inds := [0; 2]%nat |};
    {| inds := [0; 3]%nat |}; {| inds := [1; 4]%nat |};
    {| inds := [2; 0; 3]%nat |}; {| inds := [2; 0; 1]%nat |};
    {| inds := [3; 0; 1]%nat |}; {| inds := [0; 1; 4]%nat |};
    {| inds := [99; 0; 1; 77]%nat |}; {| inds := [3; 0; 1; 2]%nat |} ].

(** * Properties *)

(** ** The error monad *)

Lemma bind_Ok {A B : Type} (a : A) (f : A → result B) :
  (Ok a ≫= f) = f a.
Proof. reflexivity. Qed.

Lemma bind_Ok_inv {A B : Type} (m : result A) (f : A → result B) (b : B) :
  (m ≫= f) = Ok b → ∃ a, m = Ok a ∧ f a = Ok b.
Proof. destruct m as [a|e]; [eauto | discriminate]. Qed.

Lemma mapM_Ok {A B : Type} (f : A → result B) (g : A → B) (l : list A) :
  Forall (λ x, f x = Ok (g x)) l → mapM f l = Ok (map g l).
Proof.
  induction 1 as [|x l Hx _ IH]; [reflexivity|].
  cbn [mapM]. rewrite Hx, bind_Ok, IH. reflexivity.
Qed.

(** ** Condensed vectors and [squareform] *)

Lemma lookup_map {A B : Type} (f : A → B) (l : list A) (i : nat) :
  map f l !! i = f <$> l !! i.
Proof. apply list_lookup_fmap. Qed.

Lemma combinations2_map {A B : Type} (f : A → B) (l : list A) :
  combinations2 (map f l) = map (prod_map f f) (combinations2 l).
Proof.
  induction l as [|x t IH]; [reflexivity|].
  cbn [combinations2 map]. rewrite IH, map_app, !map_map. reflexivity.
Qed.

Lemma length_combinations2 {A : Type} (l : list A) :
  (length (combinations2 l) * 2 = length l * (length l - 1))%nat.
Proof.
  induction l as [|x t IH]; [reflexivity|].
  cbn [combinations2 length]. rewrite length_app, length_map.
  destruct (length t) as [|n]; [lia|].
  replace (S n - 1)%nat with n in IH by lia.
  replace (S (S n) - 1)%nat with (S n) by lia. nia.
Qed.

Lemma ceil_sqrt_pronic (n : nat) :
  (2 ≤ n)%nat → ceil_sqrt (n * (n - 1)) = n.
Proof.
  intros Hn. unfold ceil_sqrt.
  assert (Hs : Nat.sqrt (n * (n - 1)) = (n - 1)%nat).
  { apply Nat.sqrt_unique. destruct n as [|[|k]]; [lia..|].
    replace (S (S k) - 1)%nat with (S k) by lia. nia. }
  rewrite Hs.
  destruct (Nat.eqb_spec ((n - 1) * (n - 1)) (n * (n - 1))) as [He|_]; [|lia].
  destruct n as [|[|k]]; [lia..|].
  replace (S (S k) - 1)%nat with (S k) in He by lia. nia.
Qed.

Lemma squareform_dim_combinations2 {A : Type} (l : list A) :
  squareform_dim (length (combinations2 l)) = Ok (length l `max` 1).
Proof.
  pose proof (length_combinations2 l) as Hlen. unfold squareform_dim.
  destruct (Nat.eqb_spec (length (combinations2 l)) 0) as [H0|H0].
  - f_equal. rewrite H0 in Hlen. destruct (length l) as [|[|k]]; [lia..|nia].
  - assert (Hn : (2 ≤ length l)%nat).
    { destruct (length l) as [|[|k]]; [lia..|lia]. }
    rewrite Hlen, (ceil_sqrt_pronic _ Hn), Nat.eqb_refl. f_equal. lia.
Qed.

Lemma lookup_condensed {A : Type} (l : list A) (i j : nat) (x y : A) :
  (i < j)%nat → l !! i = Some x → l !! j = Some y →
  combinations2 l !! condensed_index (length l) i j = Some (x, y).
Proof.
  unfold condensed_index. revert i j.
  induction l as [|z t IH]; intros i j Hij Hi Hj; [discriminate|].
  cbn [combinations2 length].
  destruct i as [|i'].
  - injection Hi as ->. destruct j as [|j']; [lia|].
    change (t !! j' = Some y) in Hj.
    cbn [condensed_offset]. rewrite lookup_app_l.
    + replace (0 + (S j' - 0 - 1))%nat with j' by lia.
      rewrite lookup_map, Hj. reflexivity.
    + rewrite length_map. apply lookup_lt_Some in Hj. lia.
  - destruct j as [|j']; [lia|].
    change (t !! i' = Some x) in Hi. change (t !! j' = Some y) in Hj.
    cbn [condensed_offset]. replace (S (length t) - 1)%nat with (length t) by lia.
    rewrite lookup_app_r by (rewrite length_map; lia).
    rewrite length_map.
    replace (length t + condensed_offset (length t) i' + (S j' - S i' - 1)
             - length t)%nat
      with (condensed_offset (length t) i' + (j' - i' - 1))%nat by lia.
    apply IH; [lia|done..].
Qed.

Section Squareform.
Context {A B : Type} (zero : B) (F : A * A → B) (l : list A).
Context (G : nat → nat → B).
Hypothesis G_pair :
  ∀ i j x y, l !! i = Some x → l !! j = Some y → F (x, y) = G i j.
Hypothesis G_sym : ∀ i j, G i j = G j i.

(** The square form of a vector computed pairwise from [l] has the
    pairwise values off the diagonal and [zero] on it. *)
Lemma squareform_rows :
  ∃ M, squareform zero (map F (combinations2 l)) = Ok M ∧
       ∀ i, (i < length l)%nat →
         M !! i = Some (map (λ j, if decide (i = j) then zero else G i j)
                            (seq 0 (length l))).
Proof.
  unfold squareform. rewrite length_map, squareform_dim_combinations2.
  rewrite bind_Ok. eexists. split; [reflexivity|].
  intros i Hi.
  replace (length l `max` 1)%nat with (length l) by lia.
  rewrite lookup_map, lookup_seq_lt by lia. cbn [fmap option_fmap option_map].
  f_equal. apply map_ext_in. intros j Hj%in_seq.
  replace (0 + i)%nat with i by lia.
  destruct (decide (i = j)) as [|Hne]; [reflexivity|].
  destruct (lookup_lt_is_Some_2 l i) as [x Hx]; [lia|].
  destruct (lookup_lt_is_Some_2 l j) as [y Hy]; [lia|].
  rewrite lookup_map.
  destruct (decide (i < j)%nat) as [Hlt|Hge].
  - rewrite Nat.min_l, Nat.max_r by lia.
    rewrite (lookup_condensed l i j x y Hlt Hx Hy). cbn.
    apply G_pair; done.
  - rewrite Nat.min_r, Nat.max_l by lia.
    assert (Hji : (j < i)%nat) by lia.
    rewrite (lookup_condensed l j i y x Hji Hy Hx). cbn.
    rewrite (G_sym i j). apply G_pair; done.
Qed.
End Squareform.

Lemma getitem2_rows {B : Type} (zero : B) (G : nat → nat → B)
    (M : list (list B)) (n i j : nat) :
  (∀ i, (i < n)%nat →
        M !! i = Some (map (λ j, if decide (i = j) then zero else G i j)
                           (seq 0 n))) →
  (i < n)%nat → (j < n)%nat →
  getitem2 M i j = Ok (if decide (i = j) then zero else G i j).
Proof.
  intros HM Hi Hj. unfold getitem2, getitem.
  rewrite (HM i Hi), bind_Ok, lookup_map, lookup_seq_lt by lia.
  reflexivity.
Qed.

(** ** [diagflat] *)

Lemma diagflat_shape (v : list R) :
  has_shape (diagflat v) (length v) (length v).
Proof.
  unfold has_shape, diagflat. split.
  - rewrite length_map, length_seq. reflexivity.
  - apply Forall_forall. intros row Hrow%list_elem_of_In%in_map_iff.
    destruct Hrow as (i & <- & _). rewrite length_map, length_seq. reflexivity.
Qed.

Lemma entry_diagflat (v : list R) (i j : nat) :
  entry (diagflat v) i j =
    if decide (i = j) then default 0 (v !! i) else 0.
Proof.
  unfold entry, diagflat.
  destruct (decide (i < length v)%nat) as [Hi|Hi].
  - rewrite lookup_map, lookup_seq_lt by lia. cbn [fmap option_fmap option_map mbind option_bind].
    destruct (decide (j < length v)%nat) as [Hj|Hj].
    + rewrite lookup_map, lookup_seq_lt by lia. reflexivity.
    + rewrite lookup_map, lookup_seq_ge by lia. cbn.
      destruct (decide (i = j)); [lia|reflexivity].
  - rewrite lookup_map, lookup_seq_ge by lia. cbn.
    destruct (decide (i = j)); [|reflexivity].
    rewrite lookup_ge_None_2 by lia. reflexivity.
Qed.

Lemma entry_diagflat_diag (v : list R) (k : nat) (x : R) :
  v !! k = Some x → entry (diagflat v) k k = x.
Proof.
  intros Hk. rewrite entry_diagflat, Hk.
  destruct (decide (k = k)); [reflexivity|done].
Qed.

Lemma entry_diagflat_off (v : list R) (i j : nat) :
  i ≠ j → entry (diagflat v) i j = 0.
Proof.
  intros Hne. rewrite entry_diagflat.
  destruct (decide (i = j)); [done|reflexivity].
Qed.

Lemma diagonal_diagflat (v : list R) : diagonal (diagflat v) = v.
Proof.
  unfold diagonal. destruct (diagflat_shape v) as [-> _].
  apply list_eq. intros k. rewrite lookup_map.
  destruct (decide (k < length v)%nat) as [Hk|Hk].
  - rewrite lookup_seq_lt by lia. cbn.
    destruct (lookup_lt_is_Some_2 v k Hk) as [x Hx].
    rewrite (entry_diagflat_diag v k x Hx), Hx. reflexivity.
  - rewrite lookup_seq_ge, lookup_ge_None_2 by lia. reflexivity.
Qed.

(** ** Reals *)

Lemma Rleb_le (x y : R) : Rleb x y = true ↔ x <= y.
Proof. unfold Rleb. destruct (Rle_dec x y); split; (done || lra). Qed.

Lemma euclidean_sym (p q : R3) : euclidean p q = euclidean q p.
Proof.
  destruct p as [[x1 y1] z1], q as [[x2 y2] z2]. unfold euclidean.
  f_equal. ring.
Qed.

Lemma euclidean_nonneg (p q : R3) : 0 <= euclidean p q.
Proof.
  destruct p as [[x1 y1] z1], q as [[x2 y2] z2]. apply sqrt_pos.
Qed.

Lemma np_power_pos (x y : R) : 0 < x → np_power x y = Rpower x y.
Proof.
  intros Hx. unfold np_power. destruct (Req_dec_T x 0); [lra|reflexivity].
Qed.



(** [0.11 / x ** (-0.42)] is [0.11 * x ** 0.42] for a positive base. *)
Lemma div_np_power_neg (c x : R) :
  0 < x → c / np_power x (-0.42) = c * Rpower x 0.42.
Proof.
  intros Hx. rewrite np_power_pos by done.
  replace (-0.42) with (- (0.42)) by lra.
  rewrite Rpower_Ropp. unfold Rdiv. rewrite Rinv_inv. reflexivity.
Qed.

(** ** Strings *)

Lemma str_in_first_period (s : string) :
  str_in (lower s) first_period = is_first_period s.
Proof.
  unfold str_in, is_first_period, first_period.
  apply bool_decide_ext. rewrite !elem_of_cons, elem_of_nil. tauto.
Qed.

Lemma get_alpha_lower (s1 s2 : string) :
  get_alpha (lower s1) (lower s2) = alpha_of_pair s1 s2.
Proof.
  unfold get_alpha, alpha_of_pair. rewrite !str_in_first_period.
  destruct (is_first_period s1), (is_first_period s2); cbn; lra.
Qed.

Lemma alpha_of_pair_sym (s1 s2 : string) :
  alpha_of_pair s1 s2 = alpha_of_pair s2 s1.
Proof.
  unfold alpha_of_pair.
  destruct (is_first_period s1), (is_first_period s2); reflexivity.
Qed.

Lemma map_lower_case_variant (g1 g2 : Geometry) :
  case_variant g1 g2 → map lower (atoms g1) = map lower (atoms g2).
Proof.
  intros (_ & _ & Hsym).
  induction Hsym as [|s1 s2 l1 l2 Hs _ IH]; [reflexivity|].
  cbn [map]. rewrite Hs, IH. reflexivity.
Qed.

(** ** Lists *)

Lemma zip_with_map_same {A B C D : Type} (f : B → C → D) (a : A → B)
    (b : A → C) (l : list A) :
  zip_with f (map a l) (map b l) = map (λ x, f (a x) (b x)) l.
Proof.
  induction l as [|x t IH]; [reflexivity|].
  cbn [map zip_with]. rewrite IH. reflexivity.
Qed.

Lemma bool_sum_map {A : Type} (f : A → bool) (l : list A) :
  bool_sum (map f l) = Z.of_nat (length (filter (λ x, f x = true) l)).
Proof.
  unfold bool_sum. f_equal.
  induction l as [|x t IH]; [reflexivity|].
  cbn [map]. rewrite !filter_cons.
  destruct (decide (f x = true)); cbn [length]; rewrite IH; reflexivity.
Qed.

Lemma atom_at_lookup (g : Geometry) (i : nat) (x : Atom) :
  atom_list g !! i = Some x → atom_at g i = x.
Proof. unfold atom_at. intros ->. reflexivity. Qed.

Lemma distance_sym (g : Geometry) (i j : nat) :
  distance g i j = distance g j i.
Proof. apply euclidean_sym. Qed.

Lemma pdist_coords3d (g : Geometry) :
  pdist (coords3d g) =
    map (λ pq, euclidean (position pq.1) (position pq.2))
        (combinations2 (atom_list g)).
Proof.
  unfold pdist, coords3d. rewrite combinations2_map, map_map. reflexivity.
Qed.

(** ** The radius table and the matrices built from it *)

Section Tables.
Context {table : RadiusTable}.

Lemma pair_cov_radius_sym (g : Geometry) (i j : nat) :
  pair_cov_radius g i j = pair_cov_radius g j i.
Proof. unfold pair_cov_radius. ring. Qed.

Lemma pair_cov_radius_pos (g : Geometry) (i j : nat) :
  radii_positive → known_elements g →
  (i < natoms g)%nat → (j < natoms g)%nat → 0 < pair_cov_radius g i j.
Proof.
  intros Hpos Hknown Hi Hj.
  assert (Hone : ∀ k, (k < natoms g)%nat → 0 < cov_radius (atom_at g k)).
  { intros k Hk. destruct (lookup_lt_is_Some_2 (atom_list g) k Hk) as [a Ha].
    rewrite (atom_at_lookup g k a Ha).
    pose proof (proj1 (Forall_lookup _ _) Hknown k a Ha) as [r Hr].
    unfold cov_radius. rewrite Hr. cbn. exact (Hpos _ _ Hr). }
  unfold pair_cov_radius.
  pose proof (Hone i Hi). pose proof (Hone j Hj). lra.
Qed.

Lemma get_pair_covalent_radii_known (g : Geometry) :
  known_elements g →
  get_pair_covalent_radii g =
    Ok (map (λ pq, cov_radius pq.1 + cov_radius pq.2)
            (combinations2 (atom_list g))).
Proof.
  intros Hknown. unfold get_pair_covalent_radii, atoms.
  rewrite (mapM_Ok _ (λ s, default 0 (COVALENT_RADII !! s))).
  - rewrite bind_Ok, !map_map, combinations2_map, map_map. reflexivity.
  - rewrite map_map. apply Forall_forall.
    intros s Hs%list_elem_of_In%in_map_iff. destruct Hs as (a & <- & Ha).
    pose proof (proj1 (Forall_forall _ _) Hknown a
                  (proj2 (list_elem_of_In _ _) Ha)) as [r Hr].
    rewrite Hr. reflexivity.
Qed.

Lemma get_pair_covalent_radii_unknown (g : Geometry) :
  has_unknown_element g →
  ∃ s, s ∈ atoms g ∧ COVALENT_RADII !! lower s = None ∧
       get_pair_covalent_radii g = Raise (KeyError (KStr (lower s))).
Proof.
  unfold has_unknown_element, get_pair_covalent_radii, atoms.
  induction (atom_list g) as [|a l IH]; intros Hex.
  - inversion Hex.
  - cbn [map mapM].
    destruct (COVALENT_RADII !! lower (symbol a)) as [r|] eqn:Hr.
    + apply Exists_cons in Hex as [Hex|Hex]; [congruence|].
      destruct (IH Hex) as (s & Hs & Hnone & Hraise).
      exists s. split; [by apply list_elem_of_further|]. split; [done|].
      rewrite bind_Ok.
      destruct (mapM _ (map lower (map symbol l))) as [v|e];
        [discriminate|].
      cbn in Hraise |- *. exact Hraise.
    + exists (symbol a). split; [apply list_elem_of_here|]. split; [done|].
      reflexivity.
Qed.

Lemma get_pair_covalent_radii_case (g1 g2 : Geometry) :
  case_variant g1 g2 →
  get_pair_covalent_radii g1 = get_pair_covalent_radii g2.
Proof.
  intros Hcv. unfold get_pair_covalent_radii.
  rewrite (map_lower_case_variant g1 g2 Hcv). reflexivity.
Qed.
End Tables.

Section Matrices.
Context {table : RadiusTable}.
Variable g : Geometry.

Lemma dist_mat_rows :
  ∃ M, squareform 0 (pdist (coords3d g)) = Ok M ∧
       ∀ i, (i < natoms g)%nat →
         M !! i = Some (map (λ j, if decide (i = j) then 0
                                  else distance g i j)
                            (seq 0 (natoms g))).
Proof.
  rewrite pdist_coords3d. apply squareform_rows.
  - intros i j x y Hi Hj. unfold distance.
    rewrite (atom_at_lookup g i x Hi), (atom_at_lookup g j y Hj).
    reflexivity.
  - apply distance_sym.
Qed.

Lemma pair_cov_radii_mat_rows :
  ∃ M, squareform 0 (map (λ pq, cov_radius pq.1 + cov_radius pq.2)
                         (combinations2 (atom_list g))) = Ok M ∧
       ∀ i, (i < natoms g)%nat →
         M !! i = Some (map (λ j, if decide (i = j) then 0
                                  else pair_cov_radius g i j)
                            (seq 0 (natoms g))).
Proof.
  apply squareform_rows.
  - intros i j x y Hi Hj. unfold pair_cov_radius.
    rewrite (atom_at_lookup g i x Hi), (atom_at_lookup g j y Hj).
    reflexivity.
  - apply pair_cov_radius_sym.
Qed.

(** The bond matrix holds the connectivity decision of every pair. *)
Lemma bond_matrix_rows :
  ∃ M, bond_matrix g (pdist (coords3d g))
         (map (λ pq, cov_radius pq.1 + cov_radius pq.2)
              (combinations2 (atom_list g))) = Ok M ∧
       ∀ i, (i < natoms g)%nat →
         M !! i = Some (map (bondedb g i) (seq 0 (natoms g))).
Proof.
  unfold bond_matrix. rewrite pdist_coords3d, map_map, zip_with_map_same.
  destruct (squareform_rows false
              (λ pq : Atom * Atom,
                 Rleb (euclidean (position pq.1) (position pq.2))
                      ((cov_radius pq.1 + cov_radius pq.2)
                       * bond_factor (internal g)))
              (atom_list g)
              (λ i j, Rleb (distance g i j)
                           (bond_factor (internal g)
                            * pair_cov_radius g i j)))
    as (M & HM & Hrows).
  - intros i j x y Hi Hj. unfold distance, pair_cov_radius.
    rewrite (atom_at_lookup g i x Hi), (atom_at_lookup g j y Hj).
    cbn [fst snd]. f_equal. ring.
  - intros i j. rewrite (distance_sym g i j), (pair_cov_radius_sym g i j).
    reflexivity.
  - exists M. split; [exact HM|]. intros i Hi. rewrite (Hrows i Hi).
    f_equal. apply map_ext. intros j. unfold bondedb.
    destruct (decide (i = j)) as [Heq|Hne].
    + rewrite bool_decide_eq_false_2 by (intros Hc; done). reflexivity.
    + rewrite bool_decide_eq_true_2 by done. reflexivity.
Qed.

Lemma lindh_rhos_rows :
  ∃ M, squareform 0
         (zip_with (λ alpha x, exp (alpha * x))
            (map (λ aa : string * string, get_alpha aa.1 aa.2)
                 (combinations2 (map lower (atoms g))))
            (zip_with (λ p c, p ^ 2 - c ^ 2)
               (map (λ pq, cov_radius pq.1 + cov_radius pq.2)
                    (combinations2 (atom_list g)))
               (pdist (coords3d g)))) = Ok M ∧
       ∀ i, (i < natoms g)%nat →
         M !! i = Some (map (λ j, if decide (i = j) then 0
                                  else lindh_rho g i j)
                            (seq 0 (natoms g))).
Proof.
  unfold atoms. rewrite pdist_coords3d, !map_map, combinations2_map, !map_map.
  rewrite zip_with_map_same, zip_with_map_same.
  apply squareform_rows.
  - intros i j x y Hi Hj. unfold lindh_rho, distance, pair_cov_radius.
    rewrite (atom_at_lookup g i x Hi), (atom_at_lookup g j y Hj).
    cbn [fst snd prod_map]. rewrite get_alpha_lower. reflexivity.
  - intros i j. unfold lindh_rho.
    rewrite (distance_sym g i j), (pair_cov_radius_sym g i j),
      (alpha_of_pair_sym (symbol (atom_at g i))).
    reflexivity.
Qed.

Lemma swart_rhos_rows :
  ∃ M, squareform 0
         (zip_with (λ c p, exp (- c / p + 1))
            (pdist (coords3d g))
            (map (λ pq, cov_radius pq.1 + cov_radius pq.2)
                 (combinations2 (atom_list g)))) = Ok M ∧
       ∀ i, (i < natoms g)%nat →
         M !! i = Some (map (λ j, if decide (i = j) then 0
                                  else swart_rho g i j)
                            (seq 0 (natoms g))).
Proof.
  rewrite pdist_coords3d, zip_with_map_same.
  apply squareform_rows.
  - intros i j x y Hi Hj. unfold swart_rho, distance, pair_cov_radius.
    rewrite (atom_at_lookup g i x Hi), (atom_at_lookup g j y Hj).
    cbn [fst snd]. f_equal. unfold Rdiv. ring.
  - intros i j. unfold swart_rho.
    rewrite (distance_sym g i j), (pair_cov_radius_sym g i j).
    reflexivity.
Qed.

Lemma bool_sum_bond_row (a : nat) :
  bool_sum (map (bondedb g a) (seq 0 (natoms g))) = degree g a.
Proof. apply bool_sum_map. Qed.
End Matrices.

(** ** The loops *)

Section TorsLoop.
Variables (bond_mat : list (list bool)) (f : nat → Z) (n : nat).
Hypothesis rows :
  ∀ a, (a < n)%nat → ∃ row, bond_mat !! a = Some row ∧ bool_sum row = f a.

Let step (tors_atom_bonds : gmap (nat * nat) Z) (ab : list nat)
  : result (gmap (nat * nat) Z) :=
  match ab with
  | [a; b] =>
      row_a ← getitem bond_mat a;
      row_b ← getitem bond_mat b;
      let bond_sum := (bool_sum row_a + bool_sum row_b - 2)%Z in
      mret (<[(a, b) := bond_sum]> tors_atom_bonds)
  | _ => Raise ValueError
  end.

Let sound (d : gmap (nat * nat) Z) : Prop :=
  ∀ a b v, d !! (a, b) = Some v → v = (f a + f b - 2)%Z.

Lemma tors_loop_invariant (central_atoms : list (list nat)) :
  Forall (λ ab, ∃ a b, ab = [a; b] ∧ (a < n)%nat ∧ (b < n)%nat)
         central_atoms →
  ∀ init, sound init →
    ∃ t, foldlM step central_atoms init = Ok t ∧ sound t ∧
         (∀ k, is_Some (init !! k) → is_Some (t !! k)) ∧
         (∀ a b, [a; b] ∈ central_atoms → is_Some (t !! (a, b))).
Proof.
  induction 1 as [|ab l (a & b & -> & Ha & Hb) _ IH]; intros init Hinit.
  - exists init. split; [reflexivity|]. split; [done|]. split; [done|].
    intros a b Hin. inversion Hin.
  - destruct (rows a Ha) as (ra & Hra & Hsa).
    destruct (rows b Hb) as (rb & Hrb & Hsb).
    destruct (IH (<[(a, b) := (f a + f b - 2)%Z]> init))
      as (t & Ht & Hsound & Hmono & Hin).
    { intros a' b' v. destruct (decide ((a, b) = (a', b'))) as [[= <- <-]|Hne].
      - rewrite lookup_insert_eq. congruence.
      - rewrite lookup_insert_ne by done. apply Hinit. }
    exists t. split; [|split; [done|split]].
    + assert (Hstep : step init [a; b]
                      = Ok (<[(a, b) := (f a + f b - 2)%Z]> init)).
      { unfold step, getitem. rewrite Hra, Hrb. cbn. rewrite Hsa, Hsb.
        reflexivity. }
      cbn [foldlM]. rewrite Hstep. exact Ht.
    + intros k Hk. apply Hmono.
      destruct (decide ((a, b) = k)) as [<-|Hne].
      * rewrite lookup_insert_eq. eauto.
      * rewrite lookup_insert_ne by done. exact Hk.
    + intros a' b' [[= -> ->]|Hl]%elem_of_cons.
      * apply Hmono. rewrite lookup_insert_eq. eauto.
      * apply Hin, Hl.
Qed.

Lemma tors_atom_bonds_loop_spec (central_atoms : list (list nat)) :
  Forall (λ ab, ∃ a b, ab = [a; b] ∧ (a < n)%nat ∧ (b < n)%nat)
         central_atoms →
  ∃ t, tors_atom_bonds_loop bond_mat central_atoms = Ok t ∧
       ∀ a b, [a; b] ∈ central_atoms →
              t !! (a, b) = Some (f a + f b - 2)%Z.
Proof.
  intros Hca.
  destruct (tors_loop_invariant central_atoms Hca ∅)
    as (t & Ht & Hsound & _ & Hin).
  { intros a b v. rewrite lookup_empty. discriminate. }
  exists t. split; [exact Ht|].
  intros a b Hab. destruct (Hin a b Hab) as [v Hv].
  rewrite Hv. f_equal. exact (Hsound a b v Hv).
Qed.
End TorsLoop.

Section ChainLoop.
Variables (rhos : list (list R)) (rho : nat → nat → R) (n : nat).
Hypothesis rows :
  ∀ i, (i < n)%nat →
    rhos !! i = Some (map (λ j, if decide (i = j) then 0 else rho i j)
                          (seq 0 n)).

Lemma rhos_getitem2 (i j : nat) :
  (i < n)%nat → (j < n)%nat → i ≠ j → getitem2 rhos i j = Ok (rho i j).
Proof.
  intros Hi Hj Hne. rewrite (getitem2_rows 0 rho rhos n i j rows Hi Hj).
  destruct (decide (i = j)); [done|reflexivity].
Qed.

(** The inner loop over [range(primitive.inds.size - 1)] multiplies the
    pair function along the index tuple. *)
Lemma rho_product_loop (p : Primitive) :
  well_formed_primitive n p →
  foldlM (λ rho_product i,
            match slice i (i + 2) (inds p) with
            | [i1; i2] =>
                r ← getitem2 rhos i1 i2;
                mret (rho_product * r)
            | _ => Raise ValueError
            end)
         (seq 0 (length (inds p) - 1)) 1
  = Ok (chain_product rho (inds p)).
Proof.
  intros ([Hlo Hhi] & Hrange & Hnodup).
  destruct (inds p) as [|a [|b [|c [|d [|e l]]]]]; cbn [length] in Hlo, Hhi;
    try lia.
  - apply Forall_cons in Hrange as [Ha [Hb _]%Forall_cons].
    apply NoDup_cons in Hnodup as [Hab _].
    cbn [length Nat.sub seq foldlM slice Nat.add take drop].
    rewrite rhos_getitem2 by (done || set_solver).
    cbn [mbind result_bind mret result_ret chain_product]. f_equal. ring.
  - apply Forall_cons in Hrange as [Ha [Hb [Hc _]%Forall_cons]%Forall_cons].
    apply NoDup_cons in Hnodup as [Hab [Hbc _]%NoDup_cons].
    cbn [length Nat.sub seq foldlM slice Nat.add take drop].
    rewrite rhos_getitem2 by (done || set_solver).
    cbn [mbind result_bind mret result_ret].
    rewrite rhos_getitem2 by (done || set_solver).
    cbn [mbind result_bind mret result_ret chain_product]. f_equal. ring.
  - apply Forall_cons in Hrange
      as [Ha [Hb [Hc [Hd _]%Forall_cons]%Forall_cons]%Forall_cons].
    apply NoDup_cons in Hnodup as [Hab [Hbc [Hcd _]%NoDup_cons]%NoDup_cons].
    cbn [length Nat.sub seq foldlM slice Nat.add take drop].
    rewrite rhos_getitem2 by (done || set_solver).
    cbn [mbind result_bind mret result_ret].
    rewrite rhos_getitem2 by (done || set_solver).
    cbn [mbind result_bind mret result_ret].
    rewrite rhos_getitem2 by (done || set_solver).
    cbn [mbind result_bind mret result_ret chain_product]. f_equal. ring.
Qed.
End ChainLoop.

(** ** Closed forms of the four guesses *)

Lemma simple_guess_closed_form (g : Geometry) :
  Forall (λ p, (2 ≤ length (inds p) ≤ 4)%nat) (_prim_coords (internal g)) →
  simple_guess g =
    Ok (diagflat (map (λ p, simple_k_type (length (inds p)))
                      (_prim_coords (internal g)))).
Proof.
  intros Hlen. unfold simple_guess.
  rewrite (mapM_Ok _ (λ p, simple_k_type (length (inds p)))); [reflexivity|].
  eapply Forall_impl; [exact Hlen|]. intros p [Hlo Hhi]. cbn beta.
  destruct (length (inds p)) as [|[|[|[|[|k]]]]]; (lia || reflexivity).
Qed.

Section ClosedForms.
Context {table : RadiusTable}.
Variable g : Geometry.
Hypothesis Hknown : known_elements g.
Hypothesis Hwf : well_formed g.

Lemma lindh_guess_closed_form :
  lindh_guess g = Ok (chain_product_guess lindh_k_type (lindh_rho g) g).
Proof.
  unfold lindh_guess, chain_product_guess. cbv zeta.
  rewrite (get_pair_covalent_radii_known g Hknown), bind_Ok.
  destruct (lindh_rhos_rows g) as (rhos & -> & Hrows). rewrite bind_Ok.
  rewrite (mapM_Ok _ (λ p, lindh_k_type (length (inds p))
                           * chain_product (lindh_rho g) (inds p)));
    [reflexivity|].
  eapply Forall_impl; [exact Hwf|]. intros p Hp. cbn beta.
  rewrite (rho_product_loop rhos (lindh_rho g) (natoms g) Hrows p Hp), bind_Ok.
  destruct Hp as ([Hlo Hhi] & _).
  destruct (length (inds p)) as [|[|[|[|[|k]]]]]; (lia || reflexivity).
Qed.

Lemma swart_guess_closed_form :
  swart_guess g = Ok (chain_product_guess swart_k_type (swart_rho g) g).
Proof.
  unfold swart_guess, chain_product_guess. cbv zeta.
  rewrite (get_pair_covalent_radii_known g Hknown), bind_Ok.
  destruct (swart_rhos_rows g) as (rhos & -> & Hrows). rewrite bind_Ok.
  rewrite (mapM_Ok _ (λ p, swart_k_type (length (inds p))
                           * chain_product (swart_rho g) (inds p)));
    [reflexivity|].
  eapply Forall_impl; [exact Hwf|]. intros p Hp. cbn beta.
  rewrite (rho_product_loop rhos (swart_rho g) (natoms g) Hrows p Hp), bind_Ok.
  destruct Hp as ([Hlo Hhi] & _).
  destruct (length (inds p)) as [|[|[|[|[|k]]]]]; (lia || reflexivity).
Qed.

Lemma central_atoms_in_range :
  Forall (λ ab, ∃ a b, ab = [a; b] ∧ (a < natoms g)%nat ∧ (b < natoms g)%nat)
         (map (λ dh, slice 1 3 (inds dh)) (dihedrals (internal g))).
Proof.
  apply Forall_forall. intros ab Hab%list_elem_of_In%in_map_iff.
  destruct Hab as (dh & <- & Hdh%list_elem_of_In).
  apply list_elem_of_filter in Hdh as [Hlen Hin].
  pose proof (proj1 (Forall_forall _ _) Hwf dh Hin) as (_ & Hrange & _).
  destruct (inds dh) as [|c [|a [|b [|d [|e l]]]]]; try discriminate Hlen.
  apply Forall_cons in Hrange as [_ [Ha [Hb _]%Forall_cons]%Forall_cons].
  exists a, b. done.
Qed.

Lemma fischer_guess_closed_form :
  fischer_guess g =
    Ok (diagflat (map (fischer_value g) (_prim_coords (internal g)))).
Proof.
  unfold fischer_guess. cbv zeta.
  rewrite (get_pair_covalent_radii_known g Hknown), bind_Ok.
  destruct (bond_matrix_rows g) as (bond_mat & -> & Hbond). rewrite bind_Ok.
  destruct (tors_atom_bonds_loop_spec bond_mat (degree g) (natoms g))
    with (central_atoms := map (λ dh, slice 1 3 (inds dh))
                               (dihedrals (internal g)))
    as (tors & -> & Htors).
  { intros a Ha. eexists. split; [exact (Hbond a Ha)|].
    apply bool_sum_bond_row. }
  { exact central_atoms_in_range. }
  rewrite bind_Ok.
  destruct (dist_mat_rows g) as (dist_mat & -> & Hdist). rewrite bind_Ok.
  destruct (pair_cov_radii_mat_rows g) as (pcr_mat & -> & Hpcr).
  rewrite bind_Ok.
  rewrite (mapM_Ok _ (fischer_value g)); [reflexivity|].
  apply Forall_forall. intros p Hin.
  pose proof (proj1 (Forall_forall _ _) Hwf p Hin)
    as ([Hlo Hhi] & Hrange & Hnodup).
  assert (Hd : ∀ i j, (i < natoms g)%nat → (j < natoms g)%nat → i ≠ j →
                      getitem2 dist_mat i j = Ok (distance g i j))
    by (apply rhos_getitem2; exact Hdist).
  assert (Hc : ∀ i j, (i < natoms g)%nat → (j < natoms g)%nat → i ≠ j →
                      getitem2 pcr_mat i j = Ok (pair_cov_radius g i j))
    by (apply rhos_getitem2; exact Hpcr).
  assert (Htor : ∀ c a b d, inds p = [c; a; b; d] →
                            tors !! (a, b)
                            = Some (degree g a + degree g b - 2)%Z).
  { intros c a b d Hp. apply Htors.
    apply list_elem_of_In, in_map_iff. exists p. rewrite Hp. split; [done|].
    apply list_elem_of_In, list_elem_of_filter. rewrite Hp. done. }
  unfold fischer_value.
  destruct (inds p) as [|a [|b [|c [|d [|e l]]]]] eqn:Hp;
    cbn [length] in Hlo, Hhi; try lia; cbn [length h_funcs]; rewrite bind_Ok.
  - apply Forall_cons in Hrange as [Ha [Hb _]%Forall_cons].
    apply NoDup_cons in Hnodup as [Hab _].
    unfold h_bond. rewrite Hp.
    rewrite Hd, Hc by (done || set_solver). reflexivity.
  - apply Forall_cons in Hrange as [Ha [Hb [Hc' _]%Forall_cons]%Forall_cons].
    apply NoDup_cons in Hnodup as [Hab [Hbc _]%NoDup_cons].
    unfold h_bend. rewrite Hp.
    rewrite !Hd, !Hc by (done || set_solver). reflexivity.
  - apply Forall_cons in Hrange
      as [Ha [Hb [Hc' [Hd' _]%Forall_cons]%Forall_cons]%Forall_cons].
    apply NoDup_cons in Hnodup as [Hab [Hbc [Hcd _]%NoDup_cons]%NoDup_cons].
    unfold h_dihedral. rewrite Hp.
    rewrite Hd, Hc by (done || set_solver).
    rewrite (Htor a b c d eq_refl). reflexivity.
Qed.
End ClosedForms.

(** ** The sample data *)

Lemma sample_radii_positive : radii_positive (table := sample_radii).
Proof.
  intros s r. unfold COVALENT_RADII, sample_radii. intros Hs.
  apply lookup_insert_Some in Hs as [[_ <-]|[_ Hs]]; [lra|].
  apply lookup_insert_Some in Hs as [[_ <-]|[_ Hs]]; [lra|].
  apply lookup_singleton_Some in Hs as [_ <-]. lra.
Qed.

Lemma water_known : known_elements (table := sample_radii) water.
Proof.
  unfold known_elements. cbn [atom_list water].
  repeat (apply Forall_cons; split; [eexists; reflexivity|]).
  apply Forall_nil. done.
Qed.

Lemma hydroxylamine_known : known_elements (table := sample_radii) hydroxylamine.
Proof.
  unfold known_elements. cbn [atom_list hydroxylamine].
  repeat (apply Forall_cons; split; [eexists; reflexivity|]).
  apply Forall_nil. done.
Qed.

(** Decides [well_formed_primitive] on a literal index tuple. *)
Ltac index_tuple :=
  split; [lia|split];
  [ repeat (apply Forall_cons; split; [lia|]); apply Forall_nil; done
  | repeat (apply NoDup_cons; split;
            [rewrite ?elem_of_cons, elem_of_nil; lia|]);
    apply NoDup_nil; done ].

Lemma water_well_formed : well_formed water.
Proof.
  unfold well_formed, well_formed_primitive.
  cbn [water internal _prim_coords natoms atom_list length].
  repeat (apply Forall_cons; split; [cbn [inds length]; index_tuple|]).
  apply Forall_nil. done.
Qed.

Lemma hydroxylamine_well_formed : well_formed hydroxylamine.
Proof.
  unfold well_formed, well_formed_primitive.
  cbn [hydroxylamine internal _prim_coords natoms atom_list length].
  repeat (apply Forall_cons; split; [cbn [inds length]; index_tuple|]).
  apply Forall_nil. done.
Qed.



(** ** Entries of a closed form *)

Lemma entry_closed_form (f : Primitive → R) (prims : list Primitive)
    (k : nat) (p : Primitive) :
  prims !! k = Some p → entry (diagflat (map f prims)) k k = f p.
Proof.
  intros Hk. apply entry_diagflat_diag. rewrite lookup_map, Hk. reflexivity.
Qed.

Lemma square_diagonal_diagflat (v : list R) :
  square_diagonal (length v) (diagflat v).
Proof.
  split; [apply diagflat_shape|].
  intros i j _ _ Hne. apply entry_diagflat_off, Hne.
Qed.


Lemma chain_product_pos (rho : nat → nat → R) (l : list nat) :
  (∀ i j, 0 < rho i j) → 0 < chain_product rho l.
Proof.
  intros Hrho. induction l as [|i [|j t] IH]; cbn [chain_product]; try lra.
  apply Rmult_lt_0_compat; [apply Hrho|exact IH].
Qed.


Lemma lindh_k_type_pos (n : nat) : 0 < lindh_k_type n.
Proof. unfold lindh_k_type. destruct n as [|[|[|[|k]]]]; lra. Qed.

Lemma swart_k_type_pos (n : nat) : 0 < swart_k_type n.
Proof. unfold swart_k_type. destruct n as [|[|[|[|k]]]]; lra. Qed.

(** ** simple_guess *)

(** C1: on a geometry whose primitives are bonds, bends and dihedrals the
    simple guess returns a square matrix that is zero off the diagonal and has
    0.5 at a bond, 0.2 at a bend and 0.1 at a dihedral; a primitive set
    [bond, bond, bend] gives the diagonal [0.5, 0.5, 0.2]. *)
Theorem simple_guess_diagonal (g : Geometry) :
  Forall (λ p, (2 ≤ length (inds p) ≤ 4)%nat) (_prim_coords (internal g)) →
  ∃ H, simple_guess g = Ok H ∧
       square_diagonal (length (_prim_coords (internal g))) H ∧
       (∀ k p, _prim_coords (internal g) !! k = Some p →
          (length (inds p) = 2%nat → entry H k k = 0.5) ∧
          (length (inds p) = 3%nat → entry H k k = 0.2) ∧
          (length (inds p) = 4%nat → entry H k k = 0.1)) ∧
       (map (λ p, length (inds p)) (_prim_coords (internal g))
          = [2; 2; 3]%nat →
        diagonal H = [0.5; 0.5; 0.2]).
Proof.
  intros Hlen. eexists. split; [exact (simple_guess_closed_form g Hlen)|].
  split; [|split].
  - pose proof (square_diagonal_diagflat
                  (map (λ p, simple_k_type (length (inds p)))
                       (_prim_coords (internal g)))) as Hsq.
    rewrite length_map in Hsq. exact Hsq.
  - intros k p Hk.
    rewrite (entry_closed_form (λ p, simple_k_type (length (inds p))) _ k p Hk).
    repeat split; intros ->; reflexivity.
  - intros Hkinds. rewrite diagonal_diagflat.
    rewrite <- (map_map (λ p, length (inds p)) simple_k_type), Hkinds.
    reflexivity.
Qed.

Lemma simple_guess_diagonal_water :
  ∃ H, simple_guess water = Ok H ∧ diagonal H = [0.5; 0.5; 0.2].
Proof.
  destruct (simple_guess_diagonal water) as (H & HOk & _ & _ & Hdiag).
  - cbn [water internal _prim_coords].
    repeat (apply Forall_cons; split; [cbn [inds length]; lia|]).
    apply Forall_nil. done.
  - exists H. split; [exact HOk|]. apply Hdiag. reflexivity.
Defined.

(** ** Connectivity *)

Section Connectivity.
Context {table : RadiusTable}.
Variable g : Geometry.

Lemma bondedb_bonded (i j : nat) : bondedb g i j = true ↔ bonded g i j.
Proof.
  unfold bondedb, bonded.
  rewrite andb_true_iff, bool_decide_eq_true, Rleb_le. reflexivity.
Qed.

Lemma bonded_sym (i j : nat) : bonded g i j → bonded g j i.
Proof.
  unfold bonded. intros [Hne Hle].
  rewrite (distance_sym g j i), (pair_cov_radius_sym g j i). done.
Qed.

Lemma filter_without {A : Type} `{EqDecision A} (P : A → Prop)
    `{∀ x, Decision (P x)} (b : A) (l : list A) :
  b ∉ l → filter (λ j, j ≠ b ∧ P j) l = filter P l.
Proof.
  induction l as [|x t IH]; intros Hb; [reflexivity|].
  apply not_elem_of_cons in Hb as [Hne Hb]. rewrite !filter_cons.
  destruct (decide (P x)) as [HP|HP].
  - rewrite decide_True by done. rewrite (IH Hb). reflexivity.
  - rewrite decide_False by tauto. exact (IH Hb).
Qed.

Lemma length_filter_without {A : Type} `{EqDecision A} (P : A → Prop)
    `{∀ x, Decision (P x)} (b : A) (l : list A) :
  NoDup l → b ∈ l → P b →
  length (filter P l) = S (length (filter (λ j, j ≠ b ∧ P j) l)).
Proof.
  induction 1 as [|x t Hx Hnd IH]; intros Hb HP; [inversion Hb|].
  rewrite !filter_cons.
  destruct (decide (x = b)) as [->|Hne].
  - rewrite decide_True by done. rewrite decide_False by tauto.
    rewrite (filter_without P b t Hx). reflexivity.
  - apply elem_of_cons in Hb as [Hb|Hb]; [congruence|].
    destruct (decide (P x)) as [HPx|HPx].
    + rewrite decide_True by done. cbn [length]. rewrite (IH Hb HP).
      reflexivity.
    + rewrite decide_False by tauto. exact (IH Hb HP).
Qed.

(** A bond to [b] is one of the bonds counted at [a]. *)
Lemma degree_without_bonded (a b : nat) :
  (b < natoms g)%nat → bonded g a b →
  degree g a = (degree_without g a b + 1)%Z.
Proof.
  intros Hb Hab. unfold degree, degree_without.
  rewrite (length_filter_without (λ j, bondedb g a j = true) b).
  - lia.
  - apply NoDup_seq.
  - apply elem_of_seq. lia.
  - apply bondedb_bonded, Hab.
Qed.

Lemma degree_without_nonneg (a b : nat) : (0 <= degree_without g a b)%Z.
Proof. unfold degree_without. lia. Qed.

Lemma bond_sum_bonded (a b : nat) :
  (a < natoms g)%nat → (b < natoms g)%nat → bonded g a b →
  (degree g a + degree g b - 2
   = degree_without g a b + degree_without g b a)%Z.
Proof.
  intros Ha Hb Hab.
  rewrite (degree_without_bonded a b Hb Hab).
  rewrite (degree_without_bonded b a Ha (bonded_sym a b Hab)). lia.
Qed.
End Connectivity.

Lemma mapM_Ok_lookup {A B : Type} (f : A → result B) (l : list A)
    (v : list B) (k : nat) (x : A) :
  mapM f l = Ok v → l !! k = Some x → ∃ y, v !! k = Some y ∧ f x = Ok y.
Proof.
  revert v k. induction l as [|z t IH]; intros v k Hv Hk; [discriminate|].
  cbn [mapM] in Hv.
  apply bind_Ok_inv in Hv as (y & Hy & Hv).
  apply bind_Ok_inv in Hv as (w & Hw & [= <-]).
  destruct k as [|k'].
  - injection Hk as ->. exists y. done.
  - change (t !! k' = Some x) in Hk. exact (IH w k' Hw Hk).
Qed.

(** ** Claims on the connectivity decision and on the radius table *)

Section TableClaims.
Context {table : RadiusTable}.

(** C6: two distinct atoms are bonded in the bond matrix exactly when their
    distance is at most the bond factor times the sum of their covalent
    radii; at equality they are bonded. *)
Theorem bond_decision_inclusive (g : Geometry) :
  known_elements g →
  ∃ pair_cov_radii bond_mat,
    get_pair_covalent_radii g = Ok pair_cov_radii ∧
    bond_matrix g (pdist (coords3d g)) pair_cov_radii = Ok bond_mat ∧
    ∀ i j, (i < natoms g)%nat → (j < natoms g)%nat → i ≠ j →
      ∃ flag, getitem2 bond_mat i j = Ok flag ∧
        (flag = true ↔
           distance g i j
           <= bond_factor (internal g)
              * (cov_radius (atom_at g i) + cov_radius (atom_at g j))) ∧
        (distance g i j
         = bond_factor (internal g)
           * (cov_radius (atom_at g i) + cov_radius (atom_at g j)) →
         flag = true).
Proof.
  intros Hknown.
  destruct (bond_matrix_rows g) as (bond_mat & Hbm & Hrows).
  eexists _, bond_mat.
  split; [exact (get_pair_covalent_radii_known g Hknown)|].
  split; [exact Hbm|].
  intros i j Hi Hj Hne. exists (bondedb g i j).
  assert (Hiff : bondedb g i j = true ↔
                 distance g i j
                 <= bond_factor (internal g)
                    * (cov_radius (atom_at g i) + cov_radius (atom_at g j))).
  { rewrite bondedb_bonded. unfold bonded, pair_cov_radius. tauto. }
  split; [|split; [exact Hiff|]].
  - unfold getitem2, getitem.
    rewrite (Hrows i Hi), bind_Ok, lookup_map, lookup_seq_lt by lia.
    reflexivity.
  - intros Heq. apply Hiff. rewrite Heq. apply Rle_refl.
Qed.

(** C7: when some element of the geometry is missing from the radius table
    (looked up in lower case), the Fischer, Lindh and Swart guesses all
    raise the KeyError of that lookup; none of them returns a matrix. *)
Theorem unknown_element_raises (g : Geometry) :
  has_unknown_element g →
  ∃ s, s ∈ atoms g ∧ COVALENT_RADII !! lower s = None ∧
       fischer_guess g = Raise (KeyError (KStr (lower s))) ∧
       lindh_guess g = Raise (KeyError (KStr (lower s))) ∧
       swart_guess g = Raise (KeyError (KStr (lower s))).
Proof.
  intros Hunknown.
  destruct (get_pair_covalent_radii_unknown g Hunknown)
    as (s & Hs & Hnone & Hraise).
  exists s. split; [exact Hs|]. split; [exact Hnone|].
  unfold fischer_guess, lindh_guess, swart_guess. cbv zeta.
  rewrite Hraise. repeat split.
Qed.

(** C9: two geometries that differ only in the letter case of their element
    symbols get the same result from each of the four guesses. *)
Theorem guesses_case_insensitive (g1 g2 : Geometry) :
  case_variant g1 g2 →
  simple_guess g1 = simple_guess g2 ∧
  fischer_guess g1 = fischer_guess g2 ∧
  lindh_guess g1 = lindh_guess g2 ∧
  swart_guess g1 = swart_guess g2.
Proof.
  intros Hcv. pose proof (get_pair_covalent_radii_case g1 g2 Hcv) as Hpcr.
  pose proof (map_lower_case_variant g1 g2 Hcv) as Hlow.
  destruct Hcv as (Hint & Hcoords & _).
  unfold simple_guess, fischer_guess, lindh_guess, swart_guess, bond_matrix.
  cbv zeta. rewrite Hpcr, Hlow, Hint, Hcoords. repeat split.
Qed.

(** C10: two dihedrals with the same ordered central pair get the same
    Fischer force constant, whatever their terminal atoms. *)
Theorem fischer_dihedral_central_pair (g : Geometry) (H : list (list R))
    (k1 k2 c1 d1 c2 d2 a b : nat) :
  fischer_guess g = Ok H →
  _prim_coords (internal g) !! k1 = Some {| inds := [c1; a; b; d1] |} →
  _prim_coords (internal g) !! k2 = Some {| inds := [c2; a; b; d2] |} →
  entry H k1 k1 = entry H k2 k2.
Proof.
  unfold fischer_guess. cbv zeta. intros HOk Hk1 Hk2.
  apply bind_Ok_inv in HOk as (pcr & _ & HOk).
  apply bind_Ok_inv in HOk as (bond_mat & _ & HOk).
  apply bind_Ok_inv in HOk as (tors & _ & HOk).
  apply bind_Ok_inv in HOk as (dist_mat & _ & HOk).
  apply bind_Ok_inv in HOk as (pcr_mat & _ & HOk).
  apply bind_Ok_inv in HOk as (h_diag & Hdiag & [= <-]).
  destruct (mapM_Ok_lookup _ _ _ k1 _ Hdiag Hk1) as (v1 & Hv1 & Hf1).
  destruct (mapM_Ok_lookup _ _ _ k2 _ Hdiag Hk2) as (v2 & Hv2 & Hf2).
  rewrite (entry_diagflat_diag h_diag k1 v1 Hv1).
  rewrite (entry_diagflat_diag h_diag k2 v2 Hv2).
  cbn [inds length h_funcs] in Hf1, Hf2. rewrite bind_Ok in Hf1, Hf2.
  unfold h_dihedral in Hf1, Hf2. cbn [inds] in Hf1, Hf2.
  rewrite Hf1 in Hf2. congruence.
Qed.
End TableClaims.

Lemma bond_decision_inclusive_water :
  ∃ flag,
    (pcr ← get_pair_covalent_radii (table := sample_radii) water;
     bond_mat ← bond_matrix water (pdist (coords3d water)) pcr;
     getitem2 bond_mat 0 1) = Ok flag ∧
    (flag = true ↔
       distance water 0 1
       <= 1.3 * (cov_radius (table := sample_radii) (atom_at water 0)
                 + cov_radius (table := sample_radii) (atom_at water 1))).
Proof.
  destruct (bond_decision_inclusive (table := sample_radii) water water_known)
    as (pcr & bond_mat & -> & Hbm & Hpairs).
  rewrite bind_Ok, Hbm, bind_Ok.
  destruct (Hpairs 0%nat 1%nat) as (flag & Hflag & Hiff & _);
    [cbn; lia | cbn; lia | lia |].
  exists flag. split; [exact Hflag | exact Hiff].
Defined.

Lemma unknown_element_raises_sample :
  has_unknown_element (table := sample_radii) with_unknown ∧
  fischer_guess (table := sample_radii) with_unknown
    = Raise (KeyError (KStr "xx")) ∧
  lindh_guess (table := sample_radii) with_unknown
    = Raise (KeyError (KStr "xx")) ∧
  swart_guess (table := sample_radii) with_unknown
    = Raise (KeyError (KStr "xx")).
Proof.
  assert (Hunknown : has_unknown_element (table := sample_radii) with_unknown).
  { unfold has_unknown_element. cbn [with_unknown atom_list].
    apply Exists_cons_tl, Exists_cons_hd. reflexivity. }
  split; [exact Hunknown|].
  destruct (unknown_element_raises (table := sample_radii) with_unknown
              Hunknown) as (s & Hs & Hnone & Hf & Hl & Hsw).
  assert (Hxx : lower s = "xx"%string).
  { cbn [with_unknown atoms atom_list map symbol] in Hs.
    apply elem_of_cons in Hs as [->|Hs]; [discriminate Hnone|].
    apply elem_of_cons in Hs as [->|Hs]; [reflexivity|inversion Hs]. }
  rewrite Hxx in Hf, Hl, Hsw. done.
Defined.

Lemma water_case_variant : case_variant water water_lowercase.
Proof.
  split; [reflexivity|]. split; [reflexivity|].
  cbn [water water_lowercase atoms atom_list map symbol].
  repeat (apply Forall2_cons; split; [reflexivity|]). apply Forall2_nil. done.
Qed.

Lemma guesses_case_insensitive_water :
  simple_guess water = simple_guess water_lowercase ∧
  fischer_guess (table := sample_radii) water
    = fischer_guess (table := sample_radii) water_lowercase ∧
  lindh_guess (table := sample_radii) water
    = lindh_guess (table := sample_radii) water_lowercase ∧
  swart_guess (table := sample_radii) water
    = swart_guess (table := sample_radii) water_lowercase.
Proof.
  exact (guesses_case_insensitive (table := sample_radii) water
           water_lowercase water_case_variant).
Defined.

Lemma fischer_dihedral_central_pair_hydroxylamine :
  ∃ H, fischer_guess (table := sample_radii) hydroxylamine = Ok H ∧
       entry H 8 8 = entry H 9 9.
Proof.
  eexists. split.
  - exact (fischer_guess_closed_form (table := sample_radii) hydroxylamine
             hydroxylamine_known hydroxylamine_well_formed).
  - eapply (fischer_dihedral_central_pair (table := sample_radii)
              hydroxylamine _ 8 9 2 4 3 4 0 1).
    + exact (fischer_guess_closed_form (table := sample_radii) hydroxylamine
               hydroxylamine_known hydroxylamine_well_formed).
    + reflexivity.
    + reflexivity.
Defined.

(** ** Claims on the force constants *)

Section ForceConstants.
Context {table : RadiusTable}.
Variable g : Geometry.
Hypothesis Hknown : known_elements g.
Hypothesis Hwf : well_formed g.

Lemma primitive_well_formed (k : nat) (p : Primitive) :
  _prim_coords (internal g) !! k = Some p →
  well_formed_primitive (natoms g) p.
Proof. intros Hk. exact (proj1 (Forall_lookup _ _) Hwf k p Hk). Qed.


(** C2: the Fischer force constant of a bend [b-a-c] with central atom [a]
    is 0.089 + 0.11 (r_ab_cov r_ac_cov)^0.42
    exp(-0.44 (r_ab + r_ac - r_ab_cov - r_ac_cov)), the exponent 0.42 being
    positive. *)
Theorem fischer_bend_force_constant (k b a c : nat) :
  radii_positive →
  _prim_coords (internal g) !! k = Some {| inds := [b; a; c] |} →
  ∃ H, fischer_guess g = Ok H ∧
       entry H k k
       = 0.089 + 0.11 * Rpower (pair_cov_radius g a b
                                * pair_cov_radius g a c) 0.42
                 * exp (-0.44 * (distance g a b + distance g a c
                                 - pair_cov_radius g a b
                                 - pair_cov_radius g a c)).
Proof.
  intros Hpos Hk. eexists.
  split; [exact (fischer_guess_closed_form g Hknown Hwf)|].
  rewrite (entry_closed_form (fischer_value g) _ k _ Hk).
  destruct (primitive_well_formed k _ Hk) as (_ & Hrange & _).
  cbn [inds] in Hrange.
  apply Forall_cons in Hrange as [Hb [Ha [Hc _]%Forall_cons]%Forall_cons].
  unfold fischer_value. cbn [inds].
  rewrite div_np_power_neg; [reflexivity|].
  apply Rmult_lt_0_compat; apply pair_cov_radius_pos; done.
Qed.


(** C4: the Lindh force constant of a primitive is k_type (0.45, 0.15,
    0.005 for bonds, bends, dihedrals) times the product, over the
    consecutive pairs of its index tuple, of
    exp(alpha_ij (r_cov,ij^2 - r_ij^2)), with alpha_ij = 1.0, 0.3949 or
    0.28 for two, one or no first-period atoms in the pair. *)
Theorem lindh_force_constants :
  ∃ H, lindh_guess g = Ok H ∧
       ∀ k p, _prim_coords (internal g) !! k = Some p →
         entry H k k
         = lindh_k_type (length (inds p))
           * chain_product
               (λ i j, exp (alpha_of_pair (symbol (atom_at g i))
                                          (symbol (atom_at g j))
                            * (pair_cov_radius g i j ^ 2
                               - distance g i j ^ 2)))
               (inds p).
Proof.
  eexists. split; [exact (lindh_guess_closed_form g Hknown Hwf)|].
  intros k p Hk. unfold chain_product_guess.
  rewrite (entry_closed_form _ _ k p Hk). reflexivity.
Qed.

(** C5: the Swart guess is the chain-product scheme of the Lindh guess with
    the pair function exp(1 - r_ij / r_cov,ij) and the constants 0.35,
    0.15, 0.005. *)
Theorem swart_chain_product_scheme :
  radii_positive →
  swart_guess g
  = Ok (chain_product_guess swart_k_type
          (λ i j, exp (1 - distance g i j / pair_cov_radius g i j)) g) ∧
  lindh_guess g = Ok (chain_product_guess lindh_k_type (lindh_rho g) g).
Proof.
  intros _. split.
  - exact (swart_guess_closed_form g Hknown Hwf).
  - exact (lindh_guess_closed_form g Hknown Hwf).
Qed.

End ForceConstants.

(** ** The theorems at the sample geometries *)

Lemma hydroxylamine_NH_radii :
  pair_cov_radius (table := sample_radii) hydroxylamine 0 2 = 1.9 ∧
  pair_cov_radius (table := sample_radii) hydroxylamine 0 3 = 1.9.
Proof.
  assert (HN : cov_radius (table := sample_radii) (atom_at hydroxylamine 0)
               = 1.3) by reflexivity.
  assert (H2 : cov_radius (table := sample_radii) (atom_at hydroxylamine 2)
               = 0.6) by reflexivity.
  assert (H3 : cov_radius (table := sample_radii) (atom_at hydroxylamine 3)
               = 0.6) by reflexivity.
  unfold pair_cov_radius. rewrite HN, H2, H3. split; lra.
Qed.

Lemma hydroxylamine_NH_distances :
  distance hydroxylamine 0 2 = sqrt 3.5 ∧ distance hydroxylamine 0 3 = sqrt 3.5.
Proof.
  unfold distance, atom_at, euclidean.
  cbn [hydroxylamine atom_list lookup list_lookup default position].
  split; f_equal; lra.
Qed.

Lemma fischer_bend_force_constant_hydroxylamine :
  ∃ H, fischer_guess (table := sample_radii) hydroxylamine = Ok H ∧
       entry H 4 4
       = 0.089 + 0.11 * Rpower (1.9 * 1.9) 0.42
                 * exp (-0.44 * (sqrt 3.5 + sqrt 3.5 - 1.9 - 1.9)).
Proof.
  destruct (fischer_bend_force_constant (table := sample_radii) hydroxylamine
              hydroxylamine_known hydroxylamine_well_formed 4 2 0 3
              sample_radii_positive eq_refl) as (H & HOk & Hentry).
  exists H. split; [exact HOk|].
  destruct hydroxylamine_NH_radii as [Hr2 Hr3].
  destruct hydroxylamine_NH_distances as [Hd2 Hd3].
  rewrite Hr2, Hr3, Hd2, Hd3 in Hentry. exact Hentry.
Defined.



Lemma lindh_force_constants_water :
  ∃ H, lindh_guess (table := sample_radii) water = Ok H ∧
       entry H 2 2
       = 0.15 * (lindh_rho (table := sample_radii) water 1 0
                 * (lindh_rho (table := sample_radii) water 0 2 * 1)).
Proof.
  destruct (lindh_force_constants (table := sample_radii) water water_known
              water_well_formed) as (H & HOk & Hentries).
  exists H. split; [exact HOk|].
  exact (Hentries 2%nat {| inds := [1; 0; 2]%nat |} eq_refl).
Defined.

Lemma swart_chain_product_scheme_water :
  swart_guess (table := sample_radii) water
  = Ok (diagflat
          [ 0.35 * (swart_rho (table := sample_radii) water 0 1 * 1);
            0.35 * (swart_rho (table := sample_radii) water 0 2 * 1);
            0.15 * (swart_rho (table := sample_radii) water 1 0
                    * (swart_rho (table := sample_radii) water 0 2 * 1)) ]).
Proof.
  exact (proj1 (swart_chain_product_scheme (table := sample_radii) water
                  water_known water_well_formed sample_radii_positive)).
Defined.


(** * Further properties of guess_hessians.py *)

(** ** Rigid translations *)

Lemma euclidean_translate (t p q : R3) :
  euclidean (translate_point t p) (translate_point t q) = euclidean p q.
Proof.
  destruct t as [[tx ty] tz], p as [[x1 y1] z1], q as [[x2 y2] z2].
  unfold euclidean, translate_point. f_equal. ring.
Qed.

Lemma atoms_translate (t : R3) (g : Geometry) :
  atoms (translate t g) = atoms g.
Proof.
  unfold atoms, translate. cbn [atom_list]. rewrite map_map.
  apply map_ext. reflexivity.
Qed.

Lemma pdist_translate (t : R3) (g : Geometry) :
  pdist (coords3d (translate t g)) = pdist (coords3d g).
Proof.
  rewrite !pdist_coords3d. unfold translate. cbn [atom_list].
  rewrite combinations2_map, map_map. apply map_ext. intros [a b].
  cbn [prod_map fst snd position]. apply euclidean_translate.
Qed.

(** Moving every atom by the same vector changes none of the four guesses,
    errors included: the guesses read the positions only through [pdist]. *)
Theorem guesses_translation_invariant {table : RadiusTable} (t : R3)
    (g : Geometry) :
  simple_guess (translate t g) = simple_guess g ∧
  fischer_guess (translate t g) = fischer_guess g ∧
  lindh_guess (translate t g) = lindh_guess g ∧
  swart_guess (translate t g) = swart_guess g.
Proof.
  pose proof (atoms_translate t g) as Hatoms.
  pose proof (pdist_translate t g) as Hpdist.
  unfold simple_guess, fischer_guess, lindh_guess, swart_guess, bond_matrix,
    get_pair_covalent_radii.
  cbv zeta. rewrite Hatoms, Hpdist. repeat split.
Qed.

(** ** Each entry is a function of its own primitive *)

Section Locality.
Context {table : RadiusTable}.
Variable g : Geometry.
Hypothesis Hknown : known_elements g.

(** The force constant that a guess assigns to a primitive depends neither
    on the other primitives of the set nor on its position in it: the same
    primitive in two primitive sets of one geometry gets the same value from
    each of the four guesses. *)
Theorem force_constant_local (prims1 prims2 : list Primitive) (k1 k2 : nat)
    (p : Primitive) :
  Forall (well_formed_primitive (natoms g)) prims1 →
  Forall (well_formed_primitive (natoms g)) prims2 →
  prims1 !! k1 = Some p → prims2 !! k2 = Some p →
  Forall (λ guess : Geometry → result (list (list R)),
            ∃ H1 H2, guess (with_primitives prims1 g) = Ok H1 ∧
                     guess (with_primitives prims2 g) = Ok H2 ∧
                     entry H1 k1 k1 = entry H2 k2 k2)
         [simple_guess; fischer_guess; lindh_guess; swart_guess].
Proof.
  intros Hwf1 Hwf2 Hk1 Hk2.
  assert (Hlen : ∀ prims, Forall (well_formed_primitive (natoms g)) prims →
            Forall (λ p, (2 ≤ length (inds p) ≤ 4)%nat) prims).
  { intros prims Hwf. eapply Forall_impl; [exact Hwf|].
    intros q (Hq & _). exact Hq. }
  repeat apply Forall_cons_2; [..|apply Forall_nil_2].
  - eexists _, _.
    split; [exact (simple_guess_closed_form (with_primitives prims1 g)
                     (Hlen _ Hwf1))|].
    split; [exact (simple_guess_closed_form (with_primitives prims2 g)
                     (Hlen _ Hwf2))|].
    cbn [with_primitives internal _prim_coords].
    rewrite (entry_closed_form _ prims1 k1 p Hk1).
    rewrite (entry_closed_form _ prims2 k2 p Hk2). reflexivity.
  - eexists _, _.
    split; [exact (fischer_guess_closed_form (with_primitives prims1 g)
                     Hknown Hwf1)|].
    split; [exact (fischer_guess_closed_form (with_primitives prims2 g)
                     Hknown Hwf2)|].
    cbn [with_primitives internal _prim_coords].
    rewrite (entry_closed_form _ prims1 k1 p Hk1).
    rewrite (entry_closed_form _ prims2 k2 p Hk2). reflexivity.
  - eexists _, _.
    split; [exact (lindh_guess_closed_form (with_primitives prims1 g)
                     Hknown Hwf1)|].
    split; [exact (lindh_guess_closed_form (with_primitives prims2 g)
                     Hknown Hwf2)|].
    unfold chain_product_guess. cbn [with_primitives internal _prim_coords].
    rewrite (entry_closed_form _ prims1 k1 p Hk1).
    rewrite (entry_closed_form _ prims2 k2 p Hk2). reflexivity.
  - eexists _, _.
    split; [exact (swart_guess_closed_form (with_primitives prims1 g)
                     Hknown Hwf1)|].
    split; [exact (swart_guess_closed_form (with_primitives prims2 g)
                     Hknown Hwf2)|].
    unfold chain_product_guess. cbn [with_primitives internal _prim_coords].
    rewrite (entry_closed_form _ prims1 k1 p Hk1).
    rewrite (entry_closed_form _ prims2 k2 p Hk2). reflexivity.
Qed.
End Locality.

(** ** Direction of the index tuples *)

Lemma exp_le_mono (x y : R) : x <= y → exp x <= exp y.
Proof.
  intros [Hlt | ->]; [left; apply exp_increasing, Hlt | apply Rle_refl].
Qed.

Lemma well_formed_reverse (n : nat) (p : Primitive) :
  well_formed_primitive n p → well_formed_primitive n (reverse_primitive p).
Proof.
  intros (Hlen & Hrange & Hnodup). unfold well_formed_primitive.
  cbn [reverse_primitive inds]. rewrite length_reverse, Forall_reverse.
  split; [exact Hlen|]. split; [exact Hrange|].
  rewrite reverse_Permutation. exact Hnodup.
Qed.

Lemma chain_product_reverse (rho : nat → nat → R) (l : list nat) :
  (∀ i j, rho i j = rho j i) → (length l ≤ 4)%nat →
  chain_product rho (reverse l) = chain_product rho l.
Proof.
  intros Hsym Hlen.
  destruct l as [|a [|b [|c [|d [|e l]]]]]; cbn [length] in Hlen; try lia;
    try reflexivity.
  - change (reverse [a; b]) with [b; a]. cbn [chain_product].
    rewrite (Hsym b a). reflexivity.
  - change (reverse [a; b; c]) with [c; b; a]. cbn [chain_product].
    rewrite (Hsym c b), (Hsym b a). ring.
  - change (reverse [a; b; c; d]) with [d; c; b; a]. cbn [chain_product].
    rewrite (Hsym d c), (Hsym c b), (Hsym b a). ring.
Qed.

Section Reversal.
Context {table : RadiusTable}.
Variable g : Geometry.
Hypothesis Hknown : known_elements g.
Hypothesis Hwf : well_formed g.

Lemma lindh_rho_sym (i j : nat) : lindh_rho g i j = lindh_rho g j i.
Proof.
  unfold lindh_rho.
  rewrite (distance_sym g i j), (pair_cov_radius_sym g i j),
    (alpha_of_pair_sym (symbol (atom_at g i))).
  reflexivity.
Qed.

Lemma swart_rho_sym (i j : nat) : swart_rho g i j = swart_rho g j i.
Proof.
  unfold swart_rho.
  rewrite (distance_sym g i j), (pair_cov_radius_sym g i j). reflexivity.
Qed.

Lemma fischer_value_reverse (p : Primitive) :
  fischer_value g (reverse_primitive p) = fischer_value g p.
Proof.
  destruct p as [l]. unfold fischer_value. cbn [reverse_primitive inds].
  destruct l as [|a [|b [|c [|d [|e l]]]]]; try reflexivity.
  - change (reverse [a; b]) with [b; a]. cbv beta iota.
    rewrite (distance_sym g b a), (pair_cov_radius_sym g b a). reflexivity.
  - change (reverse [a; b; c]) with [c; b; a]. cbv beta iota.
    rewrite (Rmult_comm (pair_cov_radius g b c)).
    replace (distance g b c + distance g b a - pair_cov_radius g b c
             - pair_cov_radius g b a)
      with (distance g b a + distance g b c - pair_cov_radius g b a
            - pair_cov_radius g b c) by ring.
    reflexivity.
  - change (reverse [a; b; c; d]) with [d; c; b; a]. cbv beta iota.
    rewrite (distance_sym g c b), (pair_cov_radius_sym g c b),
      (Z.add_comm (degree g c)).
    reflexivity.
  - pose proof (length_reverse (a :: b :: c :: d :: e :: l)) as Hl.
    destruct (reverse (a :: b :: c :: d :: e :: l))
      as [|x [|y [|z [|w [|v r]]]]]; cbn [length] in Hl; try lia.
    reflexivity.
Qed.

(** Reading every index tuple backwards (bond [b-a], bend [c-a-b], dihedral
    [d-b-a-c]) changes none of the four guesses. *)
Theorem guesses_direction_invariant :
  simple_guess (reverse_tuples g) = simple_guess g ∧
  fischer_guess (reverse_tuples g) = fischer_guess g ∧
  lindh_guess (reverse_tuples g) = lindh_guess g ∧
  swart_guess (reverse_tuples g) = swart_guess g.
Proof.
  assert (Hwfr : well_formed (reverse_tuples g)).
  { unfold well_formed, reverse_tuples.
    cbn [with_primitives internal _prim_coords]. apply Forall_fmap.
    eapply Forall_impl; [exact Hwf|]. intros p Hp.
    exact (well_formed_reverse _ p Hp). }
  assert (Hlen : ∀ g', well_formed g' →
            Forall (λ p, (2 ≤ length (inds p) ≤ 4)%nat)
                   (_prim_coords (internal g'))).
  { intros g' Hg'. eapply Forall_impl; [exact Hg'|].
    intros q (Hq & _). exact Hq. }
  split; [|split; [|split]].
  - rewrite (simple_guess_closed_form _ (Hlen _ Hwfr)).
    rewrite (simple_guess_closed_form _ (Hlen _ Hwf)).
    unfold reverse_tuples. cbn [with_primitives internal _prim_coords].
    rewrite map_map. do 2 f_equal. apply map_ext. intros p.
    cbn [reverse_primitive inds]. rewrite length_reverse. reflexivity.
  - rewrite (fischer_guess_closed_form (reverse_tuples g) Hknown Hwfr).
    rewrite (fischer_guess_closed_form g Hknown Hwf).
    unfold reverse_tuples at 2. cbn [with_primitives internal _prim_coords].
    rewrite map_map. do 2 f_equal. apply map_ext. intros p.
    exact (fischer_value_reverse p).
  - rewrite (lindh_guess_closed_form (reverse_tuples g) Hknown Hwfr).
    rewrite (lindh_guess_closed_form g Hknown Hwf).
    unfold chain_product_guess, reverse_tuples.
    cbn [with_primitives internal _prim_coords].
    rewrite map_map. do 2 f_equal. apply Forall_fmap_ext_1.
    eapply Forall_impl; [exact Hwf|]. intros p ([_ Hhi] & _).
    cbn [reverse_primitive inds]. rewrite length_reverse. f_equal.
    exact (chain_product_reverse (lindh_rho g) (inds p) lindh_rho_sym Hhi).
  - rewrite (swart_guess_closed_form (reverse_tuples g) Hknown Hwfr).
    rewrite (swart_guess_closed_form g Hknown Hwf).
    unfold chain_product_guess, reverse_tuples.
    cbn [with_primitives internal _prim_coords].
    rewrite map_map. do 2 f_equal. apply Forall_fmap_ext_1.
    eapply Forall_impl; [exact Hwf|]. intros p ([_ Hhi] & _).
    cbn [reverse_primitive inds]. rewrite length_reverse. f_equal.
    exact (chain_product_reverse (swart_rho g) (inds p) swart_rho_sym Hhi).
Qed.
End Reversal.

(** ** Size of the force constants *)

Lemma alpha_of_pair_pos (s1 s2 : string) : 0 < alpha_of_pair s1 s2.
Proof.
  unfold alpha_of_pair.
  destruct (is_first_period s1), (is_first_period s2); lra.
Qed.

Lemma distance_nonneg (g : Geometry) (i j : nat) : 0 <= distance g i j.
Proof. apply euclidean_nonneg. Qed.

Lemma chain_product_le_1 (rho : nat → nat → R) (l : list nat) :
  (∀ i j, 0 < rho i j) →
  (∀ i j, i ∈ l → j ∈ l → i ≠ j → rho i j <= 1) →
  NoDup l → chain_product rho l <= 1.
Proof.
  intros Hpos. induction l as [|i [|j t] IH]; intros Hle Hnd;
    cbn [chain_product]; try lra.
  apply NoDup_cons in Hnd as [Hi Hnd].
  assert (Hij : rho i j <= 1).
  { apply Hle; [apply list_elem_of_here|
                apply list_elem_of_further, list_elem_of_here|].
    intros ->. apply Hi, list_elem_of_here. }
  assert (Ht : chain_product rho (j :: t) <= 1).
  { apply IH; [|exact Hnd]. intros x y Hx Hy.
    apply Hle; apply list_elem_of_further; done. }
  pose proof (Hpos i j). pose proof (chain_product_pos rho (j :: t) Hpos).
  change (rho i j * chain_product rho (j :: t) <= 1). nra.
Qed.

Section Sizes.
Context {table : RadiusTable}.
Variable g : Geometry.
Hypothesis Hknown : known_elements g.
Hypothesis Hwf : well_formed g.

(** The Fischer force constant of a bond [a-b] is
    0.3601 exp(-1.944 (r_ab - r_ab_cov)); at the covalent distance the three
    distance-dependent models give their reference values 0.3601 (Fischer),
    0.45 (Lindh) and 0.35 (Swart). *)
Theorem bond_force_constants (k a b : nat) :
  radii_positive →
  _prim_coords (internal g) !! k = Some {| inds := [a; b] |} →
  ∃ Hf Hl Hs,
    fischer_guess g = Ok Hf ∧ lindh_guess g = Ok Hl ∧ swart_guess g = Ok Hs ∧
    entry Hf k k
    = 0.3601 * exp (-1.944 * (distance g a b - pair_cov_radius g a b)) ∧
    (distance g a b = pair_cov_radius g a b →
     entry Hf k k = 0.3601 ∧ entry Hl k k = 0.45 ∧ entry Hs k k = 0.35).
Proof.
  intros Hpos Hk.
  destruct (primitive_well_formed g Hwf k _ Hk) as (_ & Hrange & _).
  cbn [inds] in Hrange. apply Forall_cons in Hrange as [Ha [Hb _]%Forall_cons].
  pose proof (pair_cov_radius_pos g a b Hpos Hknown Ha Hb) as Hcov.
  eexists _, _, _.
  split; [exact (fischer_guess_closed_form g Hknown Hwf)|].
  split; [exact (lindh_guess_closed_form g Hknown Hwf)|].
  split; [exact (swart_guess_closed_form g Hknown Hwf)|].
  unfold chain_product_guess.
  rewrite !(entry_closed_form _ _ k _ Hk).
  unfold fischer_value. cbn [inds length chain_product].
  split; [reflexivity|].
  intros Heq. unfold lindh_rho, swart_rho. rewrite Heq.
  replace (-1.944 * (pair_cov_radius g a b - pair_cov_radius g a b))
    with 0 by ring.
  replace (alpha_of_pair (symbol (atom_at g a)) (symbol (atom_at g b))
           * (pair_cov_radius g a b ^ 2 - pair_cov_radius g a b ^ 2))
    with 0 by ring.
  replace (1 - pair_cov_radius g a b / pair_cov_radius g a b)
    with 0 by (field; lra).
  rewrite exp_0. unfold lindh_k_type, swart_k_type. repeat split; lra.
Qed.


Lemma lindh_rho_le_1 (i j : nat) :
  0 <= pair_cov_radius g i j <= distance g i j → lindh_rho g i j <= 1.
Proof.
  intros [Hc Hd]. unfold lindh_rho. rewrite <- exp_0. apply exp_le_mono.
  pose proof (alpha_of_pair_pos (symbol (atom_at g i)) (symbol (atom_at g j)))
    as Halpha.
  assert (Hsq : pair_cov_radius g i j ^ 2 - distance g i j ^ 2 <= 0) by nra.
  rewrite <- (Rmult_0_r
                (alpha_of_pair (symbol (atom_at g i)) (symbol (atom_at g j)))).
  apply Rmult_le_compat_l; lra.
Qed.

Lemma swart_rho_le_1 (i j : nat) :
  0 < pair_cov_radius g i j <= distance g i j → swart_rho g i j <= 1.
Proof.
  intros [Hc Hd]. unfold swart_rho.
  apply Rle_trans with (exp 0); [apply exp_le_mono|rewrite exp_0; lra].
  assert (1 <= distance g i j / pair_cov_radius g i j); [|lra].
  apply (Rmult_le_reg_r (pair_cov_radius g i j)); [exact Hc|].
  unfold Rdiv. rewrite Rmult_assoc, Rinv_l by lra. lra.
Qed.

(** A primitive none of whose atom pairs is closer than the sum of the
    covalent radii gets at most the model constant: 0.45 / 0.15 / 0.005 in
    the Lindh guess and 0.35 / 0.15 / 0.005 in the Swart guess. *)
Theorem uncompressed_force_constants_bounded (k : nat) (p : Primitive) :
  radii_positive →
  _prim_coords (internal g) !! k = Some p →
  (∀ i j, i ∈ inds p → j ∈ inds p → i ≠ j →
          pair_cov_radius g i j <= distance g i j) →
  ∃ Hl Hs,
    lindh_guess g = Ok Hl ∧ swart_guess g = Ok Hs ∧
    entry Hl k k <= lindh_k_type (length (inds p)) ∧
    entry Hs k k <= swart_k_type (length (inds p)).
Proof.
  intros Hpos Hk Hfar.
  destruct (primitive_well_formed g Hwf k p Hk) as (_ & Hrange & Hnodup).
  assert (Hcov : ∀ i j, i ∈ inds p → j ∈ inds p →
                        0 < pair_cov_radius g i j).
  { intros i j Hi Hj. apply pair_cov_radius_pos; [done..| |].
    - exact (proj1 (Forall_forall _ _) Hrange i Hi).
    - exact (proj1 (Forall_forall _ _) Hrange j Hj). }
  eexists _, _.
  split; [exact (lindh_guess_closed_form g Hknown Hwf)|].
  split; [exact (swart_guess_closed_form g Hknown Hwf)|].
  unfold chain_product_guess. rewrite !(entry_closed_form _ _ k p Hk).
  split.
  - pose proof (lindh_k_type_pos (length (inds p))) as Hkpos.
    assert (chain_product (lindh_rho g) (inds p) <= 1); [|nra].
    apply chain_product_le_1; [intros; apply exp_pos| |exact Hnodup].
    intros i j Hi Hj Hne. apply lindh_rho_le_1.
    pose proof (Hcov i j Hi Hj). pose proof (Hfar i j Hi Hj Hne). lra.
  - pose proof (swart_k_type_pos (length (inds p))) as Hkpos.
    assert (chain_product (swart_rho g) (inds p) <= 1); [|nra].
    apply chain_product_le_1; [intros; apply exp_pos| |exact Hnodup].
    intros i j Hi Hj Hne. apply swart_rho_le_1.
    pose proof (Hcov i j Hi Hj). pose proof (Hfar i j Hi Hj Hne). lra.
Qed.
End Sizes.

(** ** The pair loop on arbitrary index tuples *)

Lemma slice_consecutive {A : Type} (pre : list A) (x y : A) (t : list A) :
  slice (length pre) (length pre + 2) (pre ++ x :: y :: t) = [x; y].
Proof.
  unfold slice. rewrite drop_app_length.
  replace (length pre + 2 - length pre)%nat with 2%nat by lia. reflexivity.
Qed.

(** The loop over [range(size - 1)] that slices [inds[i:i+2]] is the
    left-to-right recursion over the tuple, for tuples of any length. *)
Lemma foldlM_chain_loop (rhos : list (list R)) (l pre rest : list nat)
    (acc : R) :
  l = pre ++ rest →
  foldlM (λ rho_product i,
            match slice i (i + 2) l with
            | [i1; i2] =>
                rho ← getitem2 rhos i1 i2;
                mret (rho_product * rho)
            | _ => Raise ValueError
            end)
         (seq (length pre) (length rest - 1)) acc
  = chain_loop rhos rest acc.
Proof.
  revert pre acc. induction rest as [|x [|y t] IH]; intros pre acc Hl;
    [reflexivity..|].
  assert (Hs : slice (length pre) (length pre + 2) l = [x; y])
    by (rewrite Hl; apply slice_consecutive).
  replace (length (x :: y :: t) - 1)%nat with (S (length t))
    by (cbn [length]; lia).
  cbn [seq foldlM chain_loop]. rewrite Hs.
  destruct (getitem2 rhos x y) as [rho|e]; [|reflexivity].
  rewrite !bind_Ok.
  specialize (IH (pre ++ [x]) (acc * rho)).
  replace (length (pre ++ [x])) with (S (length pre)) in IH
    by (rewrite length_app; cbn [length]; lia).
  replace (length (y :: t) - 1)%nat with (length t) in IH
    by (cbn [length]; lia).
  apply IH. rewrite Hl, <- app_assoc. reflexivity.
Qed.

Lemma rho_loop_chain_loop (rhos : list (list R)) (l : list nat) :
  foldlM (λ rho_product i,
            match slice i (i + 2) l with
            | [i1; i2] =>
                rho ← getitem2 rhos i1 i2;
                mret (rho_product * rho)
            | _ => Raise ValueError
            end)
         (seq 0 (length l - 1)) 1
  = chain_loop rhos l 1.
Proof. exact (foldlM_chain_loop rhos l [] l 1 eq_refl). Qed.

Lemma squareform_length {A : Type} (zero : A) (X : list A)
    (M : list (list A)) (d : nat) :
  squareform_dim (length X) = Ok d → squareform zero X = Ok M → length M = d.
Proof.
  unfold squareform. intros ->. rewrite bind_Ok. intros [= <-].
  rewrite length_map, length_seq. reflexivity.
Qed.

Section PairMatrix.
Variables (M : list (list R)) (rho : nat → nat → R) (n : nat).
Hypothesis rows :
  ∀ i, (i < n)%nat →
    M !! i = Some (map (λ j, if decide (i = j) then 0 else rho i j) (seq 0 n)).
Hypothesis height : length M = n.

Lemma pair_matrix_in_range (i j : nat) :
  (i < n)%nat → (j < n)%nat → getitem2 M i j = Ok (off_diagonal rho i j).
Proof. intros Hi Hj. exact (getitem2_rows 0 rho M n i j rows Hi Hj). Qed.

Lemma pair_matrix_out_of_range (i j : nat) :
  ¬ ((i < n)%nat ∧ (j < n)%nat) → getitem2 M i j = Raise IndexError.
Proof.
  intros Hout. unfold getitem2, getitem.
  destruct (decide (i < n)%nat) as [Hi|Hi].
  - rewrite (rows i Hi), bind_Ok, lookup_map, lookup_seq_ge by lia.
    reflexivity.
  - rewrite lookup_ge_None_2 by lia. reflexivity.
Qed.

Lemma chain_loop_in_range (l : list nat) (acc : R) :
  Forall (λ i, (i < n)%nat) l →
  chain_loop M l acc = Ok (acc * chain_product (off_diagonal rho) l).
Proof.
  revert acc. induction l as [|x [|y t] IH]; intros acc Hl;
    [cbn [chain_loop chain_product]; f_equal; ring..|].
  pose proof Hl as [Hx [Hy _]%Forall_cons]%Forall_cons.
  change (chain_loop M (x :: y :: t) acc)
    with (getitem2 M x y ≫= λ r, chain_loop M (y :: t) (acc * r)).
  change (chain_product (off_diagonal rho) (x :: y :: t))
    with (off_diagonal rho x y * chain_product (off_diagonal rho) (y :: t)).
  rewrite (pair_matrix_in_range x y Hx Hy), bind_Ok.
  rewrite IH by (apply Forall_cons in Hl as [_ Hl]; exact Hl).
  f_equal. ring.
Qed.

Lemma chain_loop_out_of_range (l : list nat) (acc : R) :
  (2 ≤ length l)%nat → ¬ Forall (λ i, (i < n)%nat) l →
  chain_loop M l acc = Raise IndexError.
Proof.
  revert acc. induction l as [|x [|y t] IH]; intros acc Hlen Hout;
    cbn [length] in Hlen; try lia.
  change (chain_loop M (x :: y :: t) acc)
    with (getitem2 M x y ≫= λ r, chain_loop M (y :: t) (acc * r)).
  destruct (decide ((x < n)%nat ∧ (y < n)%nat)) as [[Hx Hy]|Hxy].
  - rewrite (pair_matrix_in_range x y Hx Hy), bind_Ok.
    assert (Hrest : ¬ Forall (λ i, (i < n)%nat) (y :: t)).
    { intros Hrest. apply Hout. apply Forall_cons. done. }
    apply IH; [|exact Hrest].
    destruct t as [|z t]; [|cbn [length]; lia].
    exfalso. apply Hrest. apply Forall_cons. split; [exact Hy|constructor].
  - rewrite (pair_matrix_out_of_range x y Hxy). reflexivity.
Qed.

Lemma chain_product_adjacent_repeat (l : list nat) :
  adjacent_repeat l → chain_product (off_diagonal rho) l = 0.
Proof.
  intros (pre & a & post & ->).
  induction pre as [|x pre IH].
  - cbn [app chain_product]. unfold off_diagonal at 1.
    rewrite decide_True by done. ring.
  - destruct pre as [|y pre].
    + cbn [app] in *. change (off_diagonal rho x a
                               * chain_product (off_diagonal rho)
                                   (a :: a :: post) = 0).
      rewrite IH. ring.
    + cbn [app] in *. change (off_diagonal rho x y
                               * chain_product (off_diagonal rho)
                                   (y :: pre ++ a :: a :: post) = 0).
      rewrite IH. ring.
Qed.
End PairMatrix.

(** ** The guesses on arbitrary primitive sets *)

Lemma mapM_Raise_at {A B : Type} (f : A → result B) (g : A → B)
    (l1 l2 : list A) (x : A) (e : exn) :
  Forall (λ y, f y = Ok (g y)) l1 → f x = Raise e →
  mapM f (l1 ++ x :: l2) = Raise e.
Proof.
  induction 1 as [|y l Hy _ IH]; intros Hx; cbn [mapM app].
  - rewrite Hx. reflexivity.
  - rewrite Hy, bind_Ok, (IH Hx). reflexivity.
Qed.

Lemma mapM_ext_all {A B : Type} (f g : A → result B) (l : list A) :
  (∀ x, f x = g x) → mapM f l = mapM g l.
Proof.
  intros Hfg. induction l as [|x l IH]; [reflexivity|].
  cbn [mapM]. rewrite Hfg, IH. reflexivity.
Qed.

Lemma squareform_dim_pronic (m n : nat) :
  (m * 2 = n * (n - 1))%nat → squareform_dim m = Ok (n `max` 1).
Proof.
  intros Hm. unfold squareform_dim.
  destruct (Nat.eqb_spec m 0) as [H0|H0].
  - f_equal. rewrite H0 in Hm. destruct n as [|[|k]]; [lia..|nia].
  - assert (Hn : (2 ≤ n)%nat) by (destruct n as [|[|k]]; lia).
    rewrite Hm, (ceil_sqrt_pronic _ Hn), Nat.eqb_refl. f_equal. lia.
Qed.

Lemma squareform_height {A : Type} (zero : A) (X : list A)
    (M : list (list A)) (n : nat) :
  (length X * 2 = n * (n - 1))%nat → (1 ≤ n)%nat →
  squareform zero X = Ok M → length M = n.
Proof.
  intros HX Hn HM.
  rewrite (squareform_length zero X M (n `max` 1)
             (squareform_dim_pronic _ _ HX) HM). lia.
Qed.

Lemma length_pdist_coords3d (g : Geometry) :
  (length (pdist (coords3d g)) * 2 = natoms g * (natoms g - 1))%nat.
Proof.
  rewrite pdist_coords3d, length_map. apply length_combinations2.
Qed.

Section ArbitraryPrimitives.
Context {table : RadiusTable}.
Variable g : Geometry.
Hypothesis Hknown : known_elements g.

Let pair_loop (k_dict : nat → result R) (rhos : list (list R))
    (primitive : Primitive) : result R :=
  rho_product ← chain_loop rhos (inds primitive) 1;
  k ← k_dict (length (inds primitive));
  mret (k * rho_product).

(** [lindh_guess] and [swart_guess] on a geometry with known elements: the
    matrix of pair values and one pass of the pair loop per primitive. *)
Lemma lindh_guess_unfold :
  ∃ rhos,
    (∀ i, (i < natoms g)%nat →
       rhos !! i = Some (map (λ j, if decide (i = j) then 0
                                   else lindh_rho g i j)
                             (seq 0 (natoms g)))) ∧
    ((1 ≤ natoms g)%nat → length rhos = natoms g) ∧
    lindh_guess g
    = (k_diag ← mapM (pair_loop lindh_k_dict rhos)
                     (_prim_coords (internal g));
       mret (diagflat k_diag)).
Proof.
  destruct (lindh_rhos_rows g) as (rhos & Hrhos & Hrows).
  exists rhos. split; [exact Hrows|]. split.
  - intros Hn. refine (squareform_height 0 _ rhos (natoms g) _ Hn Hrhos).
    rewrite !length_zip_with, !length_map.
    pose proof (length_combinations2 (map lower (atoms g))) as Ha.
    unfold atoms in Ha. rewrite !length_map in Ha. fold (natoms g) in Ha.
    pose proof (length_combinations2 (atom_list g)) as Hc.
    fold (natoms g) in Hc.
    pose proof (length_pdist_coords3d g) as Hd. unfold atoms. lia.
  - unfold lindh_guess. cbv zeta.
    rewrite (get_pair_covalent_radii_known g Hknown), bind_Ok, Hrhos, bind_Ok.
    f_equal. apply mapM_ext_all. intros p. unfold pair_loop.
    rewrite rho_loop_chain_loop. reflexivity.
Qed.

Lemma swart_guess_unfold :
  ∃ rhos,
    (∀ i, (i < natoms g)%nat →
       rhos !! i = Some (map (λ j, if decide (i = j) then 0
                                   else swart_rho g i j)
                             (seq 0 (natoms g)))) ∧
    ((1 ≤ natoms g)%nat → length rhos = natoms g) ∧
    swart_guess g
    = (k_diag ← mapM (pair_loop swart_k_dict rhos)
                     (_prim_coords (internal g));
       mret (diagflat k_diag)).
Proof.
  destruct (swart_rhos_rows g) as (rhos & Hrhos & Hrows).
  exists rhos. split; [exact Hrows|]. split.
  - intros Hn. refine (squareform_height 0 _ rhos (natoms g) _ Hn Hrhos).
    rewrite !length_zip_with, !length_map.
    pose proof (length_combinations2 (atom_list g)) as Hc.
    fold (natoms g) in Hc.
    pose proof (length_pdist_coords3d g) as Hd. lia.
  - unfold swart_guess. cbv zeta.
    rewrite (get_pair_covalent_radii_known g Hknown), bind_Ok, Hrhos, bind_Ok.
    f_equal. apply mapM_ext_all. intros p. unfold pair_loop.
    rewrite rho_loop_chain_loop. reflexivity.
Qed.

Lemma k_dict_in_range (n : nat) :
  (2 ≤ n ≤ 4)%nat →
  lindh_k_dict n = Ok (lindh_k_type n) ∧ swart_k_dict n = Ok (swart_k_type n).
Proof. intros Hn. destruct n as [|[|[|[|[|k]]]]]; (lia || done). Qed.

Lemma k_dict_bad_length (n : nat) :
  ¬ (2 ≤ n ≤ 4)%nat →
  h_dict n = Raise (KeyError (KInt n)) ∧
  lindh_k_dict n = Raise (KeyError (KInt n)) ∧
  swart_k_dict n = Raise (KeyError (KInt n)).
Proof. intros Hn. destruct n as [|[|[|[|[|k]]]]]; (lia || done). Qed.

Lemma pair_loop_in_range (rhos : list (list R)) (rho : nat → nat → R)
    (p : Primitive) :
  (∀ i, (i < natoms g)%nat →
     rhos !! i = Some (map (λ j, if decide (i = j) then 0 else rho i j)
                           (seq 0 (natoms g)))) →
  in_range_primitive (natoms g) p →
  pair_loop lindh_k_dict rhos p
  = Ok (lindh_k_type (length (inds p))
        * (1 * chain_product (off_diagonal rho) (inds p))) ∧
  pair_loop swart_k_dict rhos p
  = Ok (swart_k_type (length (inds p))
        * (1 * chain_product (off_diagonal rho) (inds p))).
Proof.
  intros Hrows (Hlen & Hrange). unfold pair_loop.
  rewrite (chain_loop_in_range rhos rho (natoms g) Hrows _ 1 Hrange), !bind_Ok.
  destruct (k_dict_in_range _ Hlen) as [-> ->]. done.
Qed.

(** A primitive that names the same atom twice in a row gets the force
    constant 0 from the Lindh and the Swart guess: [squareform] leaves the
    diagonal of the pair matrix at zero. *)
Theorem repeated_atom_zero_force_constant (k : nat) (p : Primitive) :
  Forall (in_range_primitive (natoms g)) (_prim_coords (internal g)) →
  _prim_coords (internal g) !! k = Some p →
  adjacent_repeat (inds p) →
  ∃ Hl Hs, lindh_guess g = Ok Hl ∧ swart_guess g = Ok Hs ∧
           entry Hl k k = 0 ∧ entry Hs k k = 0.
Proof.
  intros Hprims Hk Hrep.
  destruct lindh_guess_unfold as (rl & Hrl & _ & ->).
  destruct swart_guess_unfold as (rs & Hrs & _ & ->).
  rewrite (mapM_Ok _ (λ p, lindh_k_type (length (inds p))
                           * (1 * chain_product
                                    (off_diagonal (lindh_rho g)) (inds p)))).
  2:{ eapply Forall_impl; [exact Hprims|]. intros q Hq.
      exact (proj1 (pair_loop_in_range rl _ q Hrl Hq)). }
  rewrite (mapM_Ok _ (λ p, swart_k_type (length (inds p))
                           * (1 * chain_product
                                    (off_diagonal (swart_rho g)) (inds p)))).
  2:{ eapply Forall_impl; [exact Hprims|]. intros q Hq.
      exact (proj2 (pair_loop_in_range rs _ q Hrs Hq)). }
  rewrite !bind_Ok. eexists _, _. split; [reflexivity|]. split; [reflexivity|].
  rewrite !(entry_closed_form _ _ k p Hk).
  rewrite !(chain_product_adjacent_repeat _ _ Hrep). split; ring.
Qed.
(** A primitive whose number of indices is not 2, 3 or 4 makes every guess
    raise the KeyError of its constant table, with that number as the key:
    [simple_guess] always, [lindh_guess] and [swart_guess] once the pair loop
    has read the (in-range) indices of the tuple. *)
Theorem bad_length_raises_KeyError (l1 l2 : list Primitive) (p : Primitive) :
  _prim_coords (internal g) = l1 ++ p :: l2 →
  Forall (well_formed_primitive (natoms g)) l1 →
  ¬ (2 ≤ length (inds p) ≤ 4)%nat →
  simple_guess g = Raise (KeyError (KInt (length (inds p)))) ∧
  (Forall (λ i, (i < natoms g)%nat) (inds p) →
   lindh_guess g = Raise (KeyError (KInt (length (inds p)))) ∧
   swart_guess g = Raise (KeyError (KInt (length (inds p))))).
Proof.
  intros Hprims Hl1 Hbad.
  destruct (k_dict_bad_length _ Hbad) as (Hh & Hkl & Hks).
  assert (Hin : Forall (in_range_primitive (natoms g)) l1).
  { eapply Forall_impl; [exact Hl1|]. intros q (Hq & Hr & _). split; done. }
  split.
  - unfold simple_guess. rewrite Hprims.
    rewrite (mapM_Raise_at _ (λ q, simple_k_type (length (inds q))) l1 l2 p
               (KeyError (KInt (length (inds p))))); [reflexivity| |exact Hh].
    eapply Forall_impl; [exact Hl1|]. intros q ([Hlo Hhi] & _). cbn beta.
    destruct (length (inds q)) as [|[|[|[|[|n]]]]]; (lia || reflexivity).
  - intros Hrange.
    destruct lindh_guess_unfold as (rl & Hrl & _ & ->).
    destruct swart_guess_unfold as (rs & Hrs & _ & ->).
    rewrite Hprims. split.
    + rewrite (mapM_Raise_at _
                 (λ q, lindh_k_type (length (inds q))
                       * (1 * chain_product (off_diagonal (lindh_rho g))
                                (inds q)))
                 l1 l2 p (KeyError (KInt (length (inds p)))));
        [reflexivity| |].
      * eapply Forall_impl; [exact Hin|]. intros q Hq.
        exact (proj1 (pair_loop_in_range rl _ q Hrl Hq)).
      * unfold pair_loop.
        rewrite (chain_loop_in_range rl _ (natoms g) Hrl _ 1 Hrange), bind_Ok.
        rewrite Hkl. reflexivity.
    + rewrite (mapM_Raise_at _
                 (λ q, swart_k_type (length (inds q))
                       * (1 * chain_product (off_diagonal (swart_rho g))
                                (inds q)))
                 l1 l2 p (KeyError (KInt (length (inds p)))));
        [reflexivity| |].
      * eapply Forall_impl; [exact Hin|]. intros q Hq.
        exact (proj2 (pair_loop_in_range rs _ q Hrs Hq)).
      * unfold pair_loop.
        rewrite (chain_loop_in_range rs _ (natoms g) Hrs _ 1 Hrange), bind_Ok.
        rewrite Hks. reflexivity.
Qed.

(** A primitive that names an atom index outside the geometry makes
    [lindh_guess] and [swart_guess] raise IndexError, whatever its length
    (of at least two) and before its length is looked at. *)
Theorem out_of_range_raises_IndexError (l1 l2 : list Primitive)
    (p : Primitive) :
  (1 ≤ natoms g)%nat →
  _prim_coords (internal g) = l1 ++ p :: l2 →
  Forall (well_formed_primitive (natoms g)) l1 →
  (2 ≤ length (inds p))%nat →
  ¬ Forall (λ i, (i < natoms g)%nat) (inds p) →
  lindh_guess g = Raise IndexError ∧ swart_guess g = Raise IndexError.
Proof.
  intros Hn Hprims Hl1 Hlen Hout.
  assert (Hin : Forall (in_range_primitive (natoms g)) l1).
  { eapply Forall_impl; [exact Hl1|]. intros q (Hq & Hr & _). split; done. }
  destruct lindh_guess_unfold as (rl & Hrl & Hhl & ->).
  destruct swart_guess_unfold as (rs & Hrs & Hhs & ->).
  rewrite Hprims. split.
  - rewrite (mapM_Raise_at _
               (λ q, lindh_k_type (length (inds q))
                     * (1 * chain_product (off_diagonal (lindh_rho g))
                              (inds q)))
               l1 l2 p IndexError); [reflexivity| |].
    + eapply Forall_impl; [exact Hin|]. intros q Hq.
      exact (proj1 (pair_loop_in_range rl _ q Hrl Hq)).
    + unfold pair_loop.
      rewrite (chain_loop_out_of_range rl _ (natoms g) Hrl (Hhl Hn) _ 1
                 Hlen Hout).
      reflexivity.
  - rewrite (mapM_Raise_at _
               (λ q, swart_k_type (length (inds q))
                     * (1 * chain_product (off_diagonal (swart_rho g))
                              (inds q)))
               l1 l2 p IndexError); [reflexivity| |].
    + eapply Forall_impl; [exact Hin|]. intros q Hq.
      exact (proj2 (pair_loop_in_range rs _ q Hrs Hq)).
    + unfold pair_loop.
      rewrite (chain_loop_out_of_range rs _ (natoms g) Hrs (Hhs Hn) _ 1
                 Hlen Hout).
      reflexivity.
Qed.
End ArbitraryPrimitives.

(** ** [fischer_guess] on arbitrary primitive sets *)

Lemma central_atoms_elem (g : Geometry) (ab : list nat) :
  ab ∈ central_atoms g ↔
  ∃ c a b d, ab = [a; b] ∧
             {| inds := [c; a; b; d] |} ∈ _prim_coords (internal g).
Proof.
  unfold central_atoms, dihedrals. rewrite list_elem_of_fmap. split.
  - intros ([l] & -> & [Hlen Hin]%list_elem_of_filter). cbn [inds] in *.
    destruct l as [|c [|a [|b [|d [|e l]]]]]; try discriminate Hlen.
    exists c, a, b, d. done.
  - intros (c & a & b & d & -> & Hin).
    exists {| inds := [c; a; b; d] |}. split; [reflexivity|].
    apply list_elem_of_filter. done.
Qed.

Section TorsLoopFailure.
Variables (bond_mat : list (list bool)) (n : nat).
Hypothesis rows : ∀ a, (a < n)%nat → is_Some (bond_mat !! a).
Hypothesis height : length bond_mat = n.

Lemma bond_row_out_of_range (a : nat) :
  ¬ (a < n)%nat → getitem bond_mat a = Raise IndexError.
Proof.
  intros Ha. unfold getitem. rewrite lookup_ge_None_2 by lia. reflexivity.
Qed.

Lemma tors_loop_out_of_range (cas : list (list nat))
    (init : gmap (nat * nat) Z) :
  Forall (λ ab, length ab = 2%nat) cas →
  ¬ Forall (Forall (λ i, (i < n)%nat)) cas →
  foldlM (λ tors_atom_bonds ab,
            match ab with
            | [a; b] =>
                row_a ← getitem bond_mat a;
                row_b ← getitem bond_mat b;
                let bond_sum := (bool_sum row_a + bool_sum row_b - 2)%Z in
                mret (<[(a, b) := bond_sum]> tors_atom_bonds)
            | _ => Raise ValueError
            end)
         cas init
  = Raise IndexError.
Proof.
  intros Hpairs. revert init.
  induction Hpairs as [|ab cas Hab _ IH]; intros init Hout.
  - exfalso. apply Hout. constructor.
  - destruct ab as [|a [|b [|c l]]]; try discriminate Hab.
    cbn [foldlM].
    destruct (decide (a < n)%nat) as [Ha|Ha];
      [|rewrite (bond_row_out_of_range a Ha); reflexivity].
    destruct (rows a Ha) as [ra Hra].
    assert (Hga : getitem bond_mat a = Ok ra)
      by (unfold getitem; rewrite Hra; reflexivity).
    rewrite Hga, bind_Ok.
    destruct (decide (b < n)%nat) as [Hb|Hb];
      [|rewrite (bond_row_out_of_range b Hb); reflexivity].
    destruct (rows b Hb) as [rb Hrb].
    assert (Hgb : getitem bond_mat b = Ok rb)
      by (unfold getitem; rewrite Hrb; reflexivity).
    rewrite Hgb, !bind_Ok. apply IH. intros Hrest. apply Hout.
    apply Forall_cons. split; [|exact Hrest].
    apply Forall_cons. split; [exact Ha|].
    apply Forall_cons. split; [exact Hb|constructor].
Qed.
End TorsLoopFailure.

Section FischerArbitrary.
Context {table : RadiusTable}.
Variable g : Geometry.
Hypothesis Hknown : known_elements g.

Lemma central_atoms_pairs : Forall (λ ab, length ab = 2%nat) (central_atoms g).
Proof.
  apply Forall_forall. intros ab (c & a & b & d & -> & _)%central_atoms_elem.
  reflexivity.
Qed.

Lemma central_atoms_spec_form :
  Forall (Forall (λ i, (i < natoms g)%nat)) (central_atoms g) →
  Forall (λ ab, ∃ a b, ab = [a; b] ∧ (a < natoms g)%nat ∧ (b < natoms g)%nat)
         (central_atoms g).
Proof.
  intros Hrange. apply Forall_forall. intros ab Hab.
  pose proof (proj1 (Forall_forall _ _) Hrange ab Hab) as Hr.
  apply central_atoms_elem in Hab as (c & a & b & d & -> & _).
  apply Forall_cons in Hr as [Ha [Hb _]%Forall_cons]. exists a, b. done.
Qed.

(** [fischer_guess] on a geometry with known elements: the three matrices,
    the bond-count loop and one dispatch per primitive. *)
Lemma fischer_guess_unfold :
  ∃ bond_mat dist_mat pcr_mat,
    (∀ i, (i < natoms g)%nat →
       bond_mat !! i = Some (map (bondedb g i) (seq 0 (natoms g)))) ∧
    (∀ i, (i < natoms g)%nat →
       dist_mat !! i = Some (map (λ j, if decide (i = j) then 0
                                       else distance g i j)
                                 (seq 0 (natoms g)))) ∧
    (∀ i, (i < natoms g)%nat →
       pcr_mat !! i = Some (map (λ j, if decide (i = j) then 0
                                      else pair_cov_radius g i j)
                                (seq 0 (natoms g)))) ∧
    ((1 ≤ natoms g)%nat →
     length bond_mat = natoms g ∧ length dist_mat = natoms g ∧
     length pcr_mat = natoms g) ∧
    fischer_guess g
    = (tors_atom_bonds ← tors_atom_bonds_loop bond_mat (central_atoms g);
       h_diag ← mapM (λ primitive,
                        f ← h_funcs dist_mat pcr_mat tors_atom_bonds
                              (length (inds primitive));
                        f primitive)
                     (_prim_coords (internal g));
       mret (diagflat h_diag)).
Proof.
  destruct (bond_matrix_rows g) as (bm & Hbm & Hbrows).
  destruct (dist_mat_rows g) as (dm & Hdm & Hdrows).
  destruct (pair_cov_radii_mat_rows g) as (pm & Hpm & Hprows).
  exists bm, dm, pm. split; [exact Hbrows|]. split; [exact Hdrows|].
  split; [exact Hprows|].
  pose proof (length_pdist_coords3d g) as Hd.
  pose proof (length_combinations2 (atom_list g)) as Hc.
  fold (natoms g) in Hc.
  split.
  - intros Hn. split; [|split].
    + unfold bond_matrix in Hbm.
      refine (squareform_height false _ bm (natoms g) _ Hn Hbm).
      rewrite length_zip_with, !length_map. lia.
    + exact (squareform_height 0 _ dm (natoms g) Hd Hn Hdm).
    + refine (squareform_height 0 _ pm (natoms g) _ Hn Hpm).
      rewrite length_map. exact Hc.
  - unfold fischer_guess. cbv zeta.
    rewrite (get_pair_covalent_radii_known g Hknown), bind_Ok, Hbm, bind_Ok.
    fold (central_atoms g).
    destruct (tors_atom_bonds_loop bm (central_atoms g)) as [tors|e];
      [|reflexivity].
    rewrite !bind_Ok, Hdm, bind_Ok, Hpm, bind_Ok. reflexivity.
Qed.

Section Evaluation.
Variables (dist_mat pcr_mat : list (list R)) (tors : gmap (nat * nat) Z).
Hypothesis dist_rows :
  ∀ i, (i < natoms g)%nat →
    dist_mat !! i = Some (map (λ j, if decide (i = j) then 0
                                    else distance g i j)
                              (seq 0 (natoms g))).
Hypothesis pcr_rows :
  ∀ i, (i < natoms g)%nat →
    pcr_mat !! i = Some (map (λ j, if decide (i = j) then 0
                                   else pair_cov_radius g i j)
                             (seq 0 (natoms g))).

Lemma fischer_primitive_eval (p : Primitive) :
  fischer_readable (natoms g) p →
  (∀ c a b d, inds p = [c; a; b; d] →
     tors !! (a, b) = Some (degree g a + degree g b - 2)%Z) →
  (f ← h_funcs dist_mat pcr_mat tors (length (inds p)); f p)
  = Ok (fischer_value g p).
Proof.
  intros Hread Htor.
  assert (Hd : ∀ i j, (i < natoms g)%nat → (j < natoms g)%nat → i ≠ j →
                      getitem2 dist_mat i j = Ok (distance g i j))
    by (apply rhos_getitem2; exact dist_rows).
  assert (Hc : ∀ i j, (i < natoms g)%nat → (j < natoms g)%nat → i ≠ j →
                      getitem2 pcr_mat i j = Ok (pair_cov_radius g i j))
    by (apply rhos_getitem2; exact pcr_rows).
  unfold fischer_readable in Hread. unfold fischer_value.
  destruct (inds p) as [|a [|b [|c [|d [|e l]]]]] eqn:Hp; try done;
    cbn [length h_funcs]; rewrite bind_Ok.
  - destruct Hread as (Ha & Hb & Hne).
    unfold h_bond. rewrite Hp, Hd, Hc by done. reflexivity.
  - destruct Hread as (Hb & Ha & Hc' & Hne1 & Hne2).
    unfold h_bend. rewrite Hp.
    rewrite (Hd b a), (Hd b c), (Hc b a), (Hc b c) by done. reflexivity.
  - destruct Hread as (Hb & Hc' & Hne).
    unfold h_dihedral. rewrite Hp.
    rewrite Hd, Hc by done. rewrite (Htor a b c d eq_refl). reflexivity.
Qed.

Lemma fischer_bond_bend_out_of_range (p : Primitive) :
  length dist_mat = natoms g →
  (length (inds p) = 2%nat ∨ length (inds p) = 3%nat) →
  ¬ Forall (λ i, (i < natoms g)%nat) (inds p) →
  (f ← h_funcs dist_mat pcr_mat tors (length (inds p)); f p)
  = Raise IndexError.
Proof.
  intros Hheight Hlen Hout.
  destruct (inds p) as [|a [|b [|c [|d l]]]] eqn:Hp;
    cbn [length] in Hlen; try (destruct Hlen; discriminate);
    cbn [length h_funcs]; rewrite bind_Ok.
  - unfold h_bond. rewrite Hp.
    rewrite (pair_matrix_out_of_range dist_mat (distance g) (natoms g)
               dist_rows Hheight a b); [reflexivity|].
    intros [Ha Hb]. apply Hout. repeat (apply Forall_cons; split; [done|]).
    constructor.
  - unfold h_bend. rewrite Hp.
    destruct (decide ((b < natoms g)%nat ∧ (a < natoms g)%nat))
      as [[Hb Ha]|Hba].
    + rewrite (pair_matrix_in_range dist_mat (distance g) (natoms g)
                 dist_rows b a Hb Ha), bind_Ok.
      rewrite (pair_matrix_out_of_range dist_mat (distance g) (natoms g)
                 dist_rows Hheight b c); [reflexivity|].
      intros [_ Hc]. apply Hout.
      repeat (apply Forall_cons; split; [done|]). constructor.
    + rewrite (pair_matrix_out_of_range dist_mat (distance g) (natoms g)
                 dist_rows Hheight b a Hba). reflexivity.
Qed.
End Evaluation.
Lemma bond_rows_sums (bond_mat : list (list bool)) :
  (∀ i, (i < natoms g)%nat →
     bond_mat !! i = Some (map (bondedb g i) (seq 0 (natoms g)))) →
  ∀ a, (a < natoms g)%nat →
    ∃ row, bond_mat !! a = Some row ∧ bool_sum row = degree g a.
Proof.
  intros Hrows a Ha. eexists. split; [exact (Hrows a Ha)|].
  apply bool_sum_bond_row.
Qed.

Lemma readable_central_in_range :
  Forall (fischer_readable (natoms g)) (_prim_coords (internal g)) →
  Forall (Forall (λ i, (i < natoms g)%nat)) (central_atoms g).
Proof.
  intros Hread. apply Forall_forall.
  intros ab (c & a & b & d & -> & Hin)%central_atoms_elem.
  pose proof (proj1 (Forall_forall _ _) Hread _ Hin) as (Ha & Hb & _).
  repeat (apply Forall_cons; split; [done|]). constructor.
Qed.

Lemma fischer_guess_readable :
  Forall (fischer_readable (natoms g)) (_prim_coords (internal g)) →
  fischer_guess g
  = Ok (diagflat (map (fischer_value g) (_prim_coords (internal g)))).
Proof.
  intros Hread.
  destruct fischer_guess_unfold as (bm & dm & pm & Hb & Hd & Hp & _ & ->).
  destruct (tors_atom_bonds_loop_spec bm (degree g) (natoms g)
              (bond_rows_sums bm Hb) (central_atoms g)
              (central_atoms_spec_form (readable_central_in_range Hread)))
    as (tors & -> & Htors).
  rewrite bind_Ok, (mapM_Ok _ (fischer_value g)); [reflexivity|].
  apply Forall_forall. intros p Hin.
  apply (fischer_primitive_eval dm pm tors Hd Hp).
  - exact (proj1 (Forall_forall _ _) Hread p Hin).
  - intros c a b d Hinds. apply Htors. apply central_atoms_elem.
    exists c, a, b, d. split; [reflexivity|].
    destruct p as [l]. cbn [inds] in Hinds. subst l. exact Hin.
Qed.

(** A dihedral whose central pair names an atom outside the geometry makes
    [fischer_guess] raise IndexError in its bond-count loop, before any
    primitive is evaluated and whatever the other primitives are. *)
Theorem fischer_dihedral_out_of_range (c a b d : nat) :
  (1 ≤ natoms g)%nat →
  {| inds := [c; a; b; d] |} ∈ _prim_coords (internal g) →
  ¬ ((a < natoms g)%nat ∧ (b < natoms g)%nat) →
  fischer_guess g = Raise IndexError.
Proof.
  intros Hn Hin Hout.
  destruct fischer_guess_unfold as (bm & dm & pm & Hb & _ & _ & Hh & ->).
  destruct (Hh Hn) as (Hbm & _ & _).
  unfold tors_atom_bonds_loop.
  rewrite (tors_loop_out_of_range bm (natoms g)); [reflexivity| | | |].
  - intros i Hi. rewrite (Hb i Hi). eauto.
  - exact Hbm.
  - exact central_atoms_pairs.
  - intros Hall. apply Hout.
    assert (Hab : [a; b] ∈ central_atoms g).
    { apply central_atoms_elem. exists c, a, b, d. done. }
    pose proof (proj1 (Forall_forall _ _) Hall _ Hab)
      as [Ha [Hb' _]%Forall_cons]%Forall_cons.
    done.
Qed.

(** The first primitive that [fischer_guess] cannot evaluate decides the
    exception: a number of indices other than 2, 3 or 4 raises the KeyError
    of the dispatch table (when the bond-count loop has passed), and a bond
    or bend with an atom index outside the geometry raises IndexError. *)
Theorem fischer_first_failure (l1 l2 : list Primitive) (p : Primitive) :
  _prim_coords (internal g) = l1 ++ p :: l2 →
  Forall (fischer_readable (natoms g)) l1 →
  (¬ (2 ≤ length (inds p) ≤ 4)%nat →
   Forall (Forall (λ i, (i < natoms g)%nat)) (central_atoms g) →
   fischer_guess g = Raise (KeyError (KInt (length (inds p))))) ∧
  ((1 ≤ natoms g)%nat →
   length (inds p) = 2%nat ∨ length (inds p) = 3%nat →
   ¬ Forall (λ i, (i < natoms g)%nat) (inds p) →
   fischer_guess g = Raise IndexError).
Proof.
  intros Hprims Hl1.
  destruct fischer_guess_unfold as (bm & dm & pm & Hb & Hd & Hp & Hh & ->).
  assert (Hprefix : ∀ tors,
            (∀ a b, [a; b] ∈ central_atoms g →
                    tors !! (a, b) = Some (degree g a + degree g b - 2)%Z) →
            Forall (λ q, (f ← h_funcs dm pm tors (length (inds q)); f q)
                         = Ok (fischer_value g q)) l1).
  { intros tors Htors. apply Forall_forall. intros q Hq.
    apply (fischer_primitive_eval dm pm tors Hd Hp).
    - exact (proj1 (Forall_forall _ _) Hl1 q Hq).
    - intros c a b d Hinds. apply Htors, central_atoms_elem.
      exists c, a, b, d. split; [reflexivity|].
      rewrite Hprims. apply elem_of_app. left.
      destruct q as [l]. cbn [inds] in Hinds. subst l. exact Hq. }
  split.
  - intros Hbad Hcentral.
    destruct (tors_atom_bonds_loop_spec bm (degree g) (natoms g)
                (bond_rows_sums bm Hb) (central_atoms g)
                (central_atoms_spec_form Hcentral))
      as (tors & -> & Htors).
    rewrite bind_Ok, Hprims.
    rewrite (mapM_Raise_at _ (fischer_value g) l1 l2 p
               (KeyError (KInt (length (inds p)))));
      [reflexivity|exact (Hprefix tors Htors)|].
    destruct (length (inds p)) as [|[|[|[|[|n]]]]]; (lia || reflexivity).
  - intros Hn Hlen Hout. destruct (Hh Hn) as (Hbm & Hdm & _).
    destruct (decide (Forall (Forall (λ i, (i < natoms g)%nat))
                             (central_atoms g))) as [Hcentral|Hcentral].
    + destruct (tors_atom_bonds_loop_spec bm (degree g) (natoms g)
                  (bond_rows_sums bm Hb) (central_atoms g)
                  (central_atoms_spec_form Hcentral))
        as (tors & -> & Htors).
      rewrite bind_Ok, Hprims.
      rewrite (mapM_Raise_at _ (fischer_value g) l1 l2 p IndexError);
        [reflexivity|exact (Hprefix tors Htors)|].
      exact (fischer_bond_bend_out_of_range dm pm tors Hd p Hdm Hlen Hout).
    + unfold tors_atom_bonds_loop.
      rewrite (tors_loop_out_of_range bm (natoms g)); [reflexivity| | | |].
      * intros i Hi. rewrite (Hb i Hi). eauto.
      * exact Hbm.
      * exact central_atoms_pairs.
      * exact Hcentral.
Qed.
End FischerArbitrary.

Lemma same_up_to_terminals_readable (n : nat) (p q : Primitive) :
  same_up_to_terminals p q → fischer_readable n p → fischer_readable n q.
Proof.
  unfold fischer_readable.
  intros [<-|(c & d & c' & d' & a & b & -> & ->)]; done.
Qed.

Lemma same_up_to_terminals_value {table : RadiusTable} (g : Geometry)
    (p q : Primitive) :
  same_up_to_terminals p q → fischer_value g p = fischer_value g q.
Proof.
  unfold fischer_value.
  intros [<-|(c & d & c' & d' & a & b & -> & ->)]; reflexivity.
Qed.

(** [fischer_guess] never reads the terminal atoms of a dihedral: replacing
    them by any other indices, even by indices that are no atoms of the
    geometry, leaves the returned matrix unchanged. *)
Theorem fischer_reads_central_pair_only {table : RadiusTable} (g : Geometry)
    (prims' : list Primitive) :
  known_elements g →
  Forall (fischer_readable (natoms g)) (_prim_coords (internal g)) →
  Forall2 same_up_to_terminals (_prim_coords (internal g)) prims' →
  ∃ H, fischer_guess g = Ok H ∧
       fischer_guess (with_primitives prims' g) = Ok H.
Proof.
  intros Hknown Hread Hsame.
  assert (Hread' : Forall (fischer_readable (natoms g)) prims').
  { revert Hread. induction Hsame as [|p q l l' Hpq _ IH]; intros Hread;
      [constructor|].
    apply Forall_cons in Hread as [Hp Hread]. apply Forall_cons. split.
    - exact (same_up_to_terminals_readable _ p q Hpq Hp).
    - exact (IH Hread). }
  eexists. split; [exact (fischer_guess_readable g Hknown Hread)|].
  rewrite (fischer_guess_readable (with_primitives prims' g) Hknown Hread').
  cbn [with_primitives internal _prim_coords]. do 2 f_equal.
  change (map (fischer_value g) prims'
          = map (fischer_value g) (_prim_coords (internal g))).
  clear Hread Hread'.
  induction Hsame as [|p q l l' Hpq _ IH]; [reflexivity|].
  cbn [map]. rewrite IH. f_equal.
  symmetry. exact (same_up_to_terminals_value g p q Hpq).
Qed.

(** ** The radius vector, the bond matrix and the bond counts *)

Lemma length_filter_lt {A : Type} (P : A → Prop) `{∀ x, Decision (P x)}
    (a : A) (l : list A) :
  a ∈ l → ¬ P a → (length (filter P l) < length l)%nat.
Proof.
  induction l as [|x t IH]; intros Ha HP; [inversion Ha|].
  rewrite filter_cons. pose proof (length_filter P t) as Hle.
  apply elem_of_cons in Ha as [<-|Ha].
  - rewrite decide_False by done. cbn [length]. lia.
  - specialize (IH Ha HP). destruct (decide (P x)); cbn [length]; lia.
Qed.

Section BondCounts.
Context {table : RadiusTable}.
Variable g : Geometry.
Hypothesis Hknown : known_elements g.

Lemma bondedb_irrefl (a : nat) : bondedb g a a = false.
Proof.
  unfold bondedb. rewrite bool_decide_eq_false_2 by (intros Hc; done).
  reflexivity.
Qed.

Lemma bondedb_sym (i j : nat) : bondedb g i j = bondedb g j i.
Proof.
  unfold bondedb.
  rewrite (distance_sym g i j), (pair_cov_radius_sym g i j).
  f_equal. apply bool_decide_ext. split; intros Hne Heq; apply Hne; done.
Qed.

Lemma degree_bounds (a : nat) :
  (a < natoms g)%nat → (0 <= degree g a <= Z.of_nat (natoms g) - 1)%Z.
Proof.
  intros Ha. unfold degree.
  pose proof (length_filter_lt (λ j, bondedb g a j = true) a
                (seq 0 (natoms g))) as Hlt.
  rewrite length_seq in Hlt.
  assert (Hin : a ∈ seq 0 (natoms g)) by (apply elem_of_seq; lia).
  specialize (Hlt Hin). rewrite bondedb_irrefl in Hlt.
  specialize (Hlt ltac:(discriminate)). lia.
Qed.

(** The vector of [get_pair_covalent_radii] has one entry per unordered atom
    pair, the entry of the pair [i < j] being [r_i + r_j] at its place in
    the condensed order. *)
Theorem pair_covalent_radii_condensed :
  ∃ v, get_pair_covalent_radii g = Ok v ∧
       (length v * 2 = natoms g * (natoms g - 1))%nat ∧
       ∀ i j, (i < j)%nat → (j < natoms g)%nat →
         v !! condensed_index (natoms g) i j
         = Some (cov_radius (atom_at g i) + cov_radius (atom_at g j)).
Proof.
  eexists. split; [exact (get_pair_covalent_radii_known g Hknown)|]. split.
  - rewrite length_map. apply length_combinations2.
  - intros i j Hij Hj.
    destruct (lookup_lt_is_Some_2 (atom_list g) i) as [x Hx];
      [unfold natoms in Hj; lia|].
    destruct (lookup_lt_is_Some_2 (atom_list g) j) as [y Hy]; [exact Hj|].
    rewrite lookup_map.
    unfold natoms. rewrite (lookup_condensed _ i j x y Hij Hx Hy).
    rewrite (atom_at_lookup g i x Hx), (atom_at_lookup g j y Hy).
    reflexivity.
Qed.

(** The bond matrix of [fischer_guess] is symmetric, has no atom bonded to
    itself, and each of its row sums lies between 0 and the number of other
    atoms. *)
Theorem bond_matrix_symmetric_irreflexive :
  ∃ pair_cov_radii bond_mat,
    get_pair_covalent_radii g = Ok pair_cov_radii ∧
    bond_matrix g (pdist (coords3d g)) pair_cov_radii = Ok bond_mat ∧
    ∀ i, (i < natoms g)%nat →
      getitem2 bond_mat i i = Ok false ∧
      (∀ j, (j < natoms g)%nat →
            getitem2 bond_mat i j = getitem2 bond_mat j i) ∧
      ∃ row, getitem bond_mat i = Ok row ∧
             (0 <= bool_sum row <= Z.of_nat (natoms g) - 1)%Z.
Proof.
  destruct (bond_matrix_rows g) as (bond_mat & Hbm & Hrows).
  eexists _, bond_mat.
  split; [exact (get_pair_covalent_radii_known g Hknown)|].
  split; [exact Hbm|].
  assert (Hget : ∀ i j, (i < natoms g)%nat → (j < natoms g)%nat →
                        getitem2 bond_mat i j = Ok (bondedb g i j)).
  { intros i j Hi Hj. unfold getitem2, getitem.
    rewrite (Hrows i Hi), bind_Ok, lookup_map, lookup_seq_lt by lia.
    reflexivity. }
  intros i Hi. split; [|split].
  - rewrite (Hget i i Hi Hi), bondedb_irrefl. reflexivity.
  - intros j Hj. rewrite (Hget i j Hi Hj), (Hget j i Hj Hi), bondedb_sym.
    reflexivity.
  - eexists. split; [unfold getitem; rewrite (Hrows i Hi); reflexivity|].
    rewrite bool_sum_bond_row. exact (degree_bounds i Hi).
Qed.

(** A larger bond factor keeps every bond of the bond matrix. *)
Theorem bond_matrix_monotone (factor : R) :
  radii_positive → bond_factor (internal g) <= factor →
  ∃ pair_cov_radii bond_mat bond_mat',
    get_pair_covalent_radii g = Ok pair_cov_radii ∧
    bond_matrix g (pdist (coords3d g)) pair_cov_radii = Ok bond_mat ∧
    bond_matrix (with_bond_factor factor g) (pdist (coords3d g))
      pair_cov_radii = Ok bond_mat' ∧
    ∀ i j, (i < natoms g)%nat → (j < natoms g)%nat →
      getitem2 bond_mat i j = Ok true → getitem2 bond_mat' i j = Ok true.
Proof.
  intros Hpos Hle.
  destruct (bond_matrix_rows g) as (bm & Hbm & Hrows).
  destruct (bond_matrix_rows (with_bond_factor factor g))
    as (bm' & Hbm' & Hrows').
  eexists _, bm, bm'.
  split; [exact (get_pair_covalent_radii_known g Hknown)|].
  split; [exact Hbm|]. split; [exact Hbm'|].
  intros i j Hi Hj. unfold getitem2, getitem.
  rewrite (Hrows i Hi), (Hrows' i Hi), !bind_Ok, !lookup_map,
    !lookup_seq_lt by (exact Hj). cbn [fmap option_fmap option_map].
  intros [= Hb]. f_equal.
  apply bondedb_bonded in Hb as [Hne Hd]. apply bondedb_bonded.
  split; [exact Hne|].
  change (distance g i j <= factor * pair_cov_radius g i j).
  pose proof (pair_cov_radius_pos g i j Hpos Hknown Hi Hj). nra.
Qed.
End BondCounts.

Lemma tors_loop_domain (bond_mat : list (list bool)) (cas : list (list nat))
    (init t : gmap (nat * nat) Z) :
  foldlM (λ tors_atom_bonds ab,
            match ab with
            | [a; b] =>
                row_a ← getitem bond_mat a;
                row_b ← getitem bond_mat b;
                let bond_sum := (bool_sum row_a + bool_sum row_b - 2)%Z in
                mret (<[(a, b) := bond_sum]> tors_atom_bonds)
            | _ => Raise ValueError
            end)
         cas init = Ok t →
  ∀ k, is_Some (t !! k) →
       is_Some (init !! k) ∨ ∃ a b, k = (a, b) ∧ [a; b] ∈ cas.
Proof.
  revert init. induction cas as [|ab cas IH]; intros init Hfold k Hk.
  - injection Hfold as <-. left. exact Hk.
  - cbn [foldlM] in Hfold. apply bind_Ok_inv in Hfold as (s & Hstep & Hfold).
    destruct ab as [|a [|b [|c l]]]; try discriminate Hstep.
    apply bind_Ok_inv in Hstep as (ra & _ & Hstep).
    apply bind_Ok_inv in Hstep as (rb & _ & [= <-]).
    destruct (IH _ Hfold k Hk) as [Hs|(a' & b' & -> & Hin)].
    + destruct (decide ((a, b) = k)) as [<-|Hne].
      * right. exists a, b. split; [reflexivity|apply list_elem_of_here].
      * left. rewrite lookup_insert_ne in Hs by done. exact Hs.
    + right. exists a', b'. split; [reflexivity|].
      apply list_elem_of_further, Hin.
Qed.

Section BondCountTable.
Context {table : RadiusTable}.
Variable g : Geometry.
Hypothesis Hknown : known_elements g.

(** The bond-count table of [fischer_guess] has exactly the central pairs
    of the dihedrals as keys, and every count lies between -2 and
    2 N - 4 for N atoms. *)
Theorem fischer_bond_count_table :
  Forall (Forall (λ i, (i < natoms g)%nat)) (central_atoms g) →
  ∃ pair_cov_radii bond_mat tors_atom_bonds,
    get_pair_covalent_radii g = Ok pair_cov_radii ∧
    bond_matrix g (pdist (coords3d g)) pair_cov_radii = Ok bond_mat ∧
    tors_atom_bonds_loop bond_mat (central_atoms g) = Ok tors_atom_bonds ∧
    (∀ a b, is_Some (tors_atom_bonds !! (a, b)) ↔
            ∃ c d, {| inds := [c; a; b; d] |} ∈ _prim_coords (internal g)) ∧
    (∀ a b v, tors_atom_bonds !! (a, b) = Some v →
              (-2 <= v <= 2 * Z.of_nat (natoms g) - 4)%Z).
Proof.
  intros Hcentral.
  destruct (bond_matrix_rows g) as (bm & Hbm & Hrows).
  destruct (tors_atom_bonds_loop_spec bm (degree g) (natoms g)
              (bond_rows_sums g bm Hrows) (central_atoms g)
              (central_atoms_spec_form g Hcentral))
    as (tors & Htors & Hlookup).
  eexists _, bm, tors.
  split; [exact (get_pair_covalent_radii_known g Hknown)|].
  split; [exact Hbm|]. split; [exact Htors|].
  assert (Hdom : ∀ a b, is_Some (tors !! (a, b)) ↔ [a; b] ∈ central_atoms g).
  { intros a b. split.
    - intros Hsome.
      destruct (tors_loop_domain bm _ ∅ tors Htors (a, b) Hsome)
        as [Hempty|(a' & b' & [= -> ->] & Hin)]; [|exact Hin].
      rewrite lookup_empty in Hempty. destruct Hempty as [? [=]].
    - intros Hin. rewrite (Hlookup a b Hin). eauto. }
  split.
  - intros a b. rewrite Hdom, central_atoms_elem. split.
    + intros (c & a' & b' & d & [= <- <-] & Hin). eauto.
    + intros (c & d & Hin). exists c, a, b, d. done.
  - intros a b v Hv.
    assert (Hin : [a; b] ∈ central_atoms g) by (apply Hdom; eauto).
    rewrite (Hlookup a b Hin) in Hv. injection Hv as <-.
    pose proof (proj1 (Forall_forall _ _) Hcentral _ Hin)
      as [Ha [Hb _]%Forall_cons]%Forall_cons.
    pose proof (degree_bounds g a Ha). pose proof (degree_bounds g b Hb). lia.
Qed.
End BondCountTable.

(** ** The first unknown element *)

(** The KeyError of an unknown element names the first atom, in the order of
    the geometry, whose lower-cased symbol is not in the table. *)
Theorem first_unknown_element_raises {table : RadiusTable} (g : Geometry)
    (l1 l2 : list Atom) (a : Atom) :
  atom_list g = l1 ++ a :: l2 →
  Forall (λ x, is_Some (COVALENT_RADII !! lower (symbol x))) l1 →
  COVALENT_RADII !! lower (symbol a) = None →
  get_pair_covalent_radii g = Raise (KeyError (KStr (lower (symbol a)))) ∧
  fischer_guess g = Raise (KeyError (KStr (lower (symbol a)))) ∧
  lindh_guess g = Raise (KeyError (KStr (lower (symbol a)))) ∧
  swart_guess g = Raise (KeyError (KStr (lower (symbol a)))).
Proof.
  intros Hatoms Hl1 Ha.
  assert (Hraise : get_pair_covalent_radii g
                   = Raise (KeyError (KStr (lower (symbol a))))).
  { unfold get_pair_covalent_radii, atoms. cbv zeta.
    rewrite Hatoms, !map_app. cbn [map].
    rewrite (mapM_Raise_at _ (λ s, default 0 (COVALENT_RADII !! s)) _ _ _
               (KeyError (KStr (lower (symbol a))))); [reflexivity| |].
    - rewrite map_map. apply Forall_fmap.
      eapply Forall_impl; [exact Hl1|]. intros x [r Hr]. cbn.
      rewrite Hr. reflexivity.
    - rewrite Ha. reflexivity. }
  split; [exact Hraise|].
  unfold fischer_guess, lindh_guess, swart_guess. cbv zeta.
  rewrite Hraise. repeat split.
Qed.

(** ** Stretching a bond *)

Lemma symbol_atom_at (g : Geometry) (i : nat) :
  symbol (atom_at g i) = default ""%string (atoms g !! i).
Proof.
  unfold atom_at, atoms. rewrite lookup_map.
  destruct (atom_list g !! i); reflexivity.
Qed.

Lemma known_elements_atoms {table : RadiusTable} (g : Geometry) :
  known_elements g ↔
  Forall (λ s, is_Some (COVALENT_RADII !! lower s)) (atoms g).
Proof. unfold known_elements, atoms. rewrite Forall_fmap. reflexivity. Qed.

Section Stretching.
Context {table : RadiusTable}.
Variables g1 g2 : Geometry.
Hypothesis Hatoms : atoms g1 = atoms g2.
Hypothesis Hknown : known_elements g1.
Hypothesis Hwf1 : well_formed g1.
Hypothesis Hwf2 : well_formed g2.

Lemma pair_cov_radius_atoms (i j : nat) :
  pair_cov_radius g1 i j = pair_cov_radius g2 i j.
Proof.
  unfold pair_cov_radius, cov_radius.
  rewrite !symbol_atom_at, Hatoms. reflexivity.
Qed.

(** Of two geometries with the same elements, the one in which a bond is
    longer gives that bond the smaller (or equal) force constant, in the
    Fischer, the Lindh and the Swart guess. *)
Theorem stretched_bond_is_softer (k1 k2 a b : nat) :
  radii_positive →
  _prim_coords (internal g1) !! k1 = Some {| inds := [a; b] |} →
  _prim_coords (internal g2) !! k2 = Some {| inds := [a; b] |} →
  distance g1 a b <= distance g2 a b →
  Forall (λ guess : Geometry → result (list (list R)),
            ∃ H1 H2, guess g1 = Ok H1 ∧ guess g2 = Ok H2 ∧
                     entry H2 k2 k2 <= entry H1 k1 k1)
         [fischer_guess; lindh_guess; swart_guess].
Proof.
  intros Hpos Hk1 Hk2 Hle.
  assert (Hknown2 : known_elements g2).
  { apply known_elements_atoms. rewrite <- Hatoms.
    apply known_elements_atoms, Hknown. }
  destruct (primitive_well_formed g1 Hwf1 k1 _ Hk1) as (_ & Hrange & _).
  cbn [inds] in Hrange. apply Forall_cons in Hrange as [Ha [Hb _]%Forall_cons].
  pose proof (pair_cov_radius_pos g1 a b Hpos Hknown Ha Hb) as Hcov.
  pose proof (pair_cov_radius_atoms a b) as Hsame.
  pose proof (distance_nonneg g1 a b) as Hd1.
  repeat apply Forall_cons_2; [..|apply Forall_nil_2].
  - eexists _, _.
    split; [exact (fischer_guess_closed_form g1 Hknown Hwf1)|].
    split; [exact (fischer_guess_closed_form g2 Hknown2 Hwf2)|].
    rewrite (entry_closed_form _ _ k1 _ Hk1), (entry_closed_form _ _ k2 _ Hk2).
    unfold fischer_value. cbn [inds]. rewrite <- Hsame.
    apply Rmult_le_compat_l; [lra|]. apply exp_le_mono. lra.
  - eexists _, _.
    split; [exact (lindh_guess_closed_form g1 Hknown Hwf1)|].
    split; [exact (lindh_guess_closed_form g2 Hknown2 Hwf2)|].
    unfold chain_product_guess.
    rewrite (entry_closed_form _ _ k1 _ Hk1), (entry_closed_form _ _ k2 _ Hk2).
    cbn [inds length chain_product]. unfold lindh_rho.
    rewrite <- Hsame, !symbol_atom_at, <- Hatoms.
    pose proof (alpha_of_pair_pos (default ""%string (atoms g1 !! a))
                  (default ""%string (atoms g1 !! b))) as Halpha.
    apply Rmult_le_compat_l; [unfold lindh_k_type; lra|].
    apply Rmult_le_compat_r; [lra|]. apply exp_le_mono.
    apply Rmult_le_compat_l; [lra|]. nra.
  - eexists _, _.
    split; [exact (swart_guess_closed_form g1 Hknown Hwf1)|].
    split; [exact (swart_guess_closed_form g2 Hknown2 Hwf2)|].
    unfold chain_product_guess.
    rewrite (entry_closed_form _ _ k1 _ Hk1), (entry_closed_form _ _ k2 _ Hk2).
    cbn [inds length chain_product]. unfold swart_rho. rewrite <- Hsame.
    apply Rmult_le_compat_l; [unfold swart_k_type; lra|].
    apply Rmult_le_compat_r; [lra|]. apply exp_le_mono.
    assert (distance g1 a b / pair_cov_radius g1 a b
            <= distance g2 a b / pair_cov_radius g1 a b); [|lra].
    apply Rmult_le_compat_r; [|exact Hle].
    left. apply Rinv_0_lt_compat, Hcov.
Qed.
End Stretching.

(** ** The exceptions that can be raised *)

Lemma bind_no_ValueError {A B : Type} (m : result A) (f : A → result B) :
  m ≠ Raise ValueError → (∀ a, m = Ok a → f a ≠ Raise ValueError) →
  (m ≫= f) ≠ Raise ValueError.
Proof.
  destruct m as [a|e]; intros Hm Hf; [exact (Hf a eq_refl)|].
  intros [= ->]. apply Hm. reflexivity.
Qed.

Lemma mapM_no_ValueError {A B : Type} (f : A → result B) (l : list A) :
  Forall (λ x, f x ≠ Raise ValueError) l → mapM f l ≠ Raise ValueError.
Proof.
  induction 1 as [|x l Hx _ IH]; [discriminate|].
  cbn [mapM]. apply bind_no_ValueError; [exact Hx|]. intros y _.
  apply bind_no_ValueError; [exact IH|]. discriminate.
Qed.

Lemma foldlM_no_ValueError {A S : Type} (f : S → A → result S) (l : list A)
    (s : S) :
  (∀ s x, x ∈ l → f s x ≠ Raise ValueError) →
  foldlM f l s ≠ Raise ValueError.
Proof.
  revert s. induction l as [|x l IH]; intros s Hf; [discriminate|].
  cbn [foldlM]. apply bind_no_ValueError.
  - apply Hf, list_elem_of_here.
  - intros s' _. apply IH. intros s'' y Hy. apply Hf, list_elem_of_further, Hy.
Qed.

Lemma getitem_no_ValueError {A : Type} (M : list A) (a : nat) :
  getitem M a ≠ Raise ValueError.
Proof. unfold getitem. destruct (M !! a); discriminate. Qed.

Lemma getitem2_no_ValueError {A : Type} (M : list (list A)) (a b : nat) :
  getitem2 M a b ≠ Raise ValueError.
Proof.
  unfold getitem2. apply bind_no_ValueError; [apply getitem_no_ValueError|].
  intros row _. apply getitem_no_ValueError.
Qed.

Lemma chain_loop_no_ValueError (rhos : list (list R)) (l : list nat)
    (acc : R) :
  chain_loop rhos l acc ≠ Raise ValueError.
Proof.
  revert acc. induction l as [|x [|y t] IH]; intros acc; [discriminate..|].
  change (chain_loop rhos (x :: y :: t) acc)
    with (getitem2 rhos x y ≫= λ r, chain_loop rhos (y :: t) (acc * r)).
  apply bind_no_ValueError; [apply getitem2_no_ValueError|].
  intros r _. apply IH.
Qed.

Lemma k_dict_no_ValueError (n : nat) :
  h_dict n ≠ Raise ValueError ∧ lindh_k_dict n ≠ Raise ValueError ∧
  swart_k_dict n ≠ Raise ValueError.
Proof. destruct n as [|[|[|[|[|k]]]]]; repeat split; discriminate. Qed.

Lemma fischer_dispatch_no_ValueError (dist_mat pcr_mat : list (list R))
    (tors : gmap (nat * nat) Z) (p : Primitive) :
  (f ← h_funcs dist_mat pcr_mat tors (length (inds p)); f p)
  ≠ Raise ValueError.
Proof.
  destruct (inds p) as [|a [|b [|c [|d [|e l]]]]] eqn:Hp;
    cbn [length h_funcs]; try discriminate; rewrite bind_Ok.
  - unfold h_bond. rewrite Hp.
    repeat (apply bind_no_ValueError;
            [apply getitem2_no_ValueError|intros ? _]).
    discriminate.
  - unfold h_bend. rewrite Hp.
    repeat (apply bind_no_ValueError;
            [apply getitem2_no_ValueError|intros ? _]).
    discriminate.
  - unfold h_dihedral. rewrite Hp.
    repeat (apply bind_no_ValueError;
            [apply getitem2_no_ValueError|intros ? _]).
    apply bind_no_ValueError; [destruct (tors !! (b, c)); discriminate|].
    intros ? _. discriminate.
Qed.

(** None of the four guesses ever raises ValueError: [squareform] accepts
    the condensed vectors they build for every number of atoms (zero and one
    included), and the dispatch on the number of indices keeps the tuple
    unpacking safe.  What a guess can raise is a KeyError or an
    IndexError. *)
Theorem guesses_never_raise_ValueError {table : RadiusTable} (g : Geometry) :
  Forall (λ guess : Geometry → result (list (list R)),
            guess g ≠ Raise ValueError)
         [simple_guess; fischer_guess; lindh_guess; swart_guess].
Proof.
  assert (Hsimple : simple_guess g ≠ Raise ValueError).
  { unfold simple_guess. apply bind_no_ValueError; [|discriminate].
    apply mapM_no_ValueError, Forall_forall. intros p _.
    apply k_dict_no_ValueError. }
  destruct (decide (known_elements g)) as [Hknown|Hunknown].
  - repeat apply Forall_cons_2; [exact Hsimple|..|apply Forall_nil_2].
    + destruct (fischer_guess_unfold g Hknown)
        as (bm & dm & pm & _ & _ & _ & _ & ->).
      apply bind_no_ValueError.
      * unfold tors_atom_bonds_loop. apply foldlM_no_ValueError.
        intros s ab (c & a & b & d & -> & _)%central_atoms_elem.
        repeat (apply bind_no_ValueError;
                [apply getitem_no_ValueError|intros ? _]).
        discriminate.
      * intros tors _. apply bind_no_ValueError; [|discriminate].
        apply mapM_no_ValueError, Forall_forall. intros p _.
        apply fischer_dispatch_no_ValueError.
    + destruct (lindh_guess_unfold g Hknown) as (rhos & _ & _ & ->).
      apply bind_no_ValueError; [|discriminate].
      apply mapM_no_ValueError, Forall_forall. intros p _.
      apply bind_no_ValueError; [apply chain_loop_no_ValueError|].
      intros r _. apply bind_no_ValueError; [apply k_dict_no_ValueError|].
      discriminate.
    + destruct (swart_guess_unfold g Hknown) as (rhos & _ & _ & ->).
      apply bind_no_ValueError; [|discriminate].
      apply mapM_no_ValueError, Forall_forall. intros p _.
      apply bind_no_ValueError; [apply chain_loop_no_ValueError|].
      intros r _. apply bind_no_ValueError; [apply k_dict_no_ValueError|].
      discriminate.
  - assert (Hex : has_unknown_element g).
    { apply not_Forall_Exists in Hunknown; [|apply _].
      unfold has_unknown_element. eapply Exists_impl; [exact Hunknown|].
      intros a Ha. apply eq_None_not_Some, Ha. }
    destruct (get_pair_covalent_radii_unknown g Hex) as (s & _ & _ & Hraise).
    repeat apply Forall_cons_2; [exact Hsimple|..|apply Forall_nil_2];
      unfold fischer_guess, lindh_guess, swart_guess; cbv zeta;
      rewrite Hraise; discriminate.
Qed.

(** ** The further properties at the sample geometries *)

Lemma water_OH_at_covalent_distance :
  distance water 0 1 = pair_cov_radius (table := sample_radii) water 0 1.
Proof.
  assert (HO : cov_radius (table := sample_radii) (atom_at water 0) = 1.2)
    by reflexivity.
  assert (HH : cov_radius (table := sample_radii) (atom_at water 1) = 0.6)
    by reflexivity.
  unfold pair_cov_radius. rewrite HO, HH.
  unfold distance, atom_at, euclidean.
  cbn [water atom_list lookup list_lookup default position].
  apply sqrt_lem_1; lra.
Qed.

Lemma force_constant_local_hydroxylamine :
  Forall (λ guess : Geometry → result (list (list R)),
            ∃ H1 H2, guess hydroxylamine = Ok H1 ∧
                     guess (with_primitives
                              [ {| inds := [2; 0; 1; 4]%nat |} ]
                              hydroxylamine) = Ok H2 ∧
                     entry H1 8 8 = entry H2 0 0)
         [simple_guess; fischer_guess (table := sample_radii);
          lindh_guess (table := sample_radii);
          swart_guess (table := sample_radii)].
Proof.
  refine (force_constant_local (table := sample_radii) hydroxylamine
            hydroxylamine_known (_prim_coords (internal hydroxylamine))
            [ {| inds := [2; 0; 1; 4]%nat |} ] 8 0
            {| inds := [2; 0; 1; 4]%nat |}
            hydroxylamine_well_formed _ eq_refl eq_refl).
  apply Forall_cons; split; [unfold well_formed_primitive, natoms; cbn; index_tuple|].
  apply Forall_nil. done.
Defined.

Lemma guesses_direction_invariant_hydroxylamine :
  simple_guess (reverse_tuples hydroxylamine) = simple_guess hydroxylamine ∧
  fischer_guess (table := sample_radii) (reverse_tuples hydroxylamine)
  = fischer_guess (table := sample_radii) hydroxylamine ∧
  lindh_guess (table := sample_radii) (reverse_tuples hydroxylamine)
  = lindh_guess (table := sample_radii) hydroxylamine ∧
  swart_guess (table := sample_radii) (reverse_tuples hydroxylamine)
  = swart_guess (table := sample_radii) hydroxylamine.
Proof.
  exact (guesses_direction_invariant (table := sample_radii) hydroxylamine
           hydroxylamine_known hydroxylamine_well_formed).
Defined.

Lemma bond_force_constants_water :
  ∃ Hf Hl Hs,
    fischer_guess (table := sample_radii) water = Ok Hf ∧
    lindh_guess (table := sample_radii) water = Ok Hl ∧
    swart_guess (table := sample_radii) water = Ok Hs ∧
    entry Hf 0 0 = 0.3601 ∧ entry Hl 0 0 = 0.45 ∧ entry Hs 0 0 = 0.35.
Proof.
  destruct (bond_force_constants (table := sample_radii) water water_known
              water_well_formed 0 0 1 sample_radii_positive eq_refl)
    as (Hf & Hl & Hs & HOkf & HOkl & HOks & _ & Href).
  exists Hf, Hl, Hs. repeat (split; [assumption|]).
  exact (Href water_OH_at_covalent_distance).
Defined.


Lemma uncompressed_force_constants_bounded_water :
  ∃ Hl Hs, lindh_guess (table := sample_radii) water = Ok Hl ∧
           swart_guess (table := sample_radii) water = Ok Hs ∧
           entry Hl 0 0 <= 0.45 ∧ entry Hs 0 0 <= 0.35.
Proof.
  refine (uncompressed_force_constants_bounded (table := sample_radii) water
            water_known water_well_formed 0 {| inds := [0; 1]%nat |}
            sample_radii_positive eq_refl _).
  intros i j Hi Hj Hne. cbn [inds] in Hi, Hj.
  assert (Hij : (i = 0 ∧ j = 1)%nat ∨ (i = 1 ∧ j = 0)%nat).
  { rewrite !elem_of_cons, elem_of_nil in Hi, Hj. lia. }
  destruct Hij as [[-> ->]|[-> ->]].
  - rewrite water_OH_at_covalent_distance. apply Rle_refl.
  - rewrite (distance_sym water 1 0),
      (pair_cov_radius_sym (table := sample_radii) water 1 0),
      water_OH_at_covalent_distance.
    apply Rle_refl.
Defined.

Lemma repeated_atom_zero_force_constant_water :
  ∃ Hl Hs, lindh_guess (table := sample_radii) water_self_bond = Ok Hl ∧
           swart_guess (table := sample_radii) water_self_bond = Ok Hs ∧
           entry Hl 0 0 = 0 ∧ entry Hs 0 0 = 0.
Proof.
  refine (repeated_atom_zero_force_constant (table := sample_radii)
            water_self_bond water_known 0 {| inds := [0; 0]%nat |}
            _ eq_refl _).
  - apply Forall_cons; split; [|apply Forall_nil; done].
    split; [cbn [inds length]; lia|].
    cbn [inds]. repeat (apply Forall_cons; split; [cbn; lia|]).
    apply Forall_nil. done.
  - exists [], 0%nat, []. reflexivity.
Defined.

Lemma bad_length_raises_KeyError_water :
  simple_guess water_five_tuple = Raise (KeyError (KInt 5)) ∧
  lindh_guess (table := sample_radii) water_five_tuple
  = Raise (KeyError (KInt 5)) ∧
  swart_guess (table := sample_radii) water_five_tuple
  = Raise (KeyError (KInt 5)).
Proof.
  destruct (bad_length_raises_KeyError (table := sample_radii)
              water_five_tuple water_known [ {| inds := [0; 1]%nat |} ] []
              {| inds := [0; 1; 2; 1; 0]%nat |} eq_refl)
    as (Hsimple & Hpair).
  - apply Forall_cons; split; [unfold well_formed_primitive, natoms; cbn; index_tuple|].
    apply Forall_nil. done.
  - cbn [inds length]. lia.
  - split; [exact Hsimple|]. apply Hpair. cbn [inds].
    repeat (apply Forall_cons; split; [cbn; lia|]). apply Forall_nil. done.
Defined.

Lemma out_of_range_raises_IndexError_water :
  lindh_guess (table := sample_radii) water_bad_bond = Raise IndexError ∧
  swart_guess (table := sample_radii) water_bad_bond = Raise IndexError.
Proof.
  refine (out_of_range_raises_IndexError (table := sample_radii)
            water_bad_bond water_known [ {| inds := [0; 1]%nat |} ] []
            {| inds := [0; 7]%nat |} _ eq_refl _ _ _).
  - cbn. lia.
  - apply Forall_cons; split; [unfold well_formed_primitive, natoms; cbn; index_tuple|].
    apply Forall_nil. done.
  - cbn [inds length]. lia.
  - cbn [inds]. intros [_ [H7 _]%Forall_cons]%Forall_cons. cbn in H7. lia.
Defined.

Lemma fischer_dihedral_out_of_range_water :
  fischer_guess (table := sample_radii) water_bad_dihedral = Raise IndexError.
Proof.
  refine (fischer_dihedral_out_of_range (table := sample_radii)
            water_bad_dihedral water_known 0 1 9 2 _ _ _).
  - cbn. lia.
  - apply list_elem_of_further, list_elem_of_here.
  - unfold natoms. cbn. lia.
Defined.

Lemma fischer_first_failure_water :
  fischer_guess (table := sample_radii) water_five_tuple
  = Raise (KeyError (KInt 5)) ∧
  fischer_guess (table := sample_radii) water_bad_bend = Raise IndexError.
Proof.
  assert (Hprefix : Forall (fischer_readable 3) [ {| inds := [0; 1]%nat |} ]).
  { apply Forall_cons; split; [|apply Forall_nil; done].
    unfold fischer_readable. cbn [inds]. lia. }
  split.
  - refine (proj1 (fischer_first_failure (table := sample_radii)
                     water_five_tuple water_known
                     [ {| inds := [0; 1]%nat |} ] []
                     {| inds := [0; 1; 2; 1; 0]%nat |} eq_refl Hprefix) _ _).
    + cbn [inds length]. lia.
    + apply Forall_nil. done.
  - refine (proj2 (fischer_first_failure (table := sample_radii)
                     water_bad_bend water_known
                     [ {| inds := [0; 1]%nat |} ] []
                     {| inds := [1; 0; 7]%nat |} eq_refl Hprefix) _ _ _).
    + cbn. lia.
    + right. reflexivity.
    + cbn [inds].
      intros [_ [_ [H7 _]%Forall_cons]%Forall_cons]%Forall_cons.
      cbn in H7. lia.
Defined.

Lemma hydroxylamine_readable :
  Forall (fischer_readable 5) (_prim_coords (internal hydroxylamine)).
Proof.
  cbn [hydroxylamine internal _prim_coords].
  repeat (apply Forall_cons; split;
          [unfold fischer_readable; cbn [inds]; lia|]).
  apply Forall_nil. done.
Qed.

Lemma fischer_reads_central_pair_only_hydroxylamine :
  ∃ H, fischer_guess (table := sample_radii) hydroxylamine = Ok H ∧
       fischer_guess (table := sample_radii)
         (with_primitives hydroxylamine_other_terminals hydroxylamine)
       = Ok H.
Proof.
  refine (fischer_reads_central_pair_only (table := sample_radii)
            hydroxylamine hydroxylamine_other_terminals hydroxylamine_known
            hydroxylamine_readable _).
  cbn [hydroxylamine internal _prim_coords hydroxylamine_other_terminals].
  do 8 (apply Forall2_cons; split; [left; reflexivity|]).
  apply Forall2_cons. split.
  { right. exists 2%nat, 4%nat, 99%nat, 77%nat, 0%nat, 1%nat. done. }
  apply Forall2_cons. split.
  { right. exists 3%nat, 4%nat, 3%nat, 2%nat, 0%nat, 1%nat. done. }
  apply Forall2_nil. done.
Defined.

Lemma pair_covalent_radii_condensed_water :
  ∃ v, get_pair_covalent_radii (table := sample_radii) water = Ok v ∧
       length v = 3%nat ∧
       v !! 2%nat
       = Some (cov_radius (table := sample_radii) (atom_at water 1)
               + cov_radius (table := sample_radii) (atom_at water 2)).
Proof.
  destruct (pair_covalent_radii_condensed (table := sample_radii) water
              water_known) as (v & HOk & Hlen & Hentries).
  exists v. split; [exact HOk|]. split.
  - unfold natoms in Hlen. cbn in Hlen. lia.
  - apply (Hentries 1%nat 2%nat); [lia|]. cbn. lia.
Defined.

Lemma bond_matrix_symmetric_irreflexive_water :
  ∃ pcr bond_mat,
    get_pair_covalent_radii (table := sample_radii) water = Ok pcr ∧
    bond_matrix water (pdist (coords3d water)) pcr = Ok bond_mat ∧
    getitem2 bond_mat 1 1 = Ok false ∧
    getitem2 bond_mat 1 2 = getitem2 bond_mat 2 1.
Proof.
  destruct (bond_matrix_symmetric_irreflexive (table := sample_radii) water
              water_known) as (pcr & bm & Hpcr & Hbm & Hprops).
  exists pcr, bm. split; [exact Hpcr|]. split; [exact Hbm|].
  destruct (Hprops 1%nat) as (Hdiag & Hsym & _); [cbn; lia|].
  split; [exact Hdiag|]. apply Hsym. cbn. lia.
Defined.

Lemma bond_matrix_monotone_water :
  ∃ pcr bond_mat bond_mat',
    get_pair_covalent_radii (table := sample_radii) water = Ok pcr ∧
    bond_matrix water (pdist (coords3d water)) pcr = Ok bond_mat ∧
    bond_matrix (with_bond_factor 1.5 water) (pdist (coords3d water)) pcr
    = Ok bond_mat' ∧
    (getitem2 bond_mat 0 1 = Ok true → getitem2 bond_mat' 0 1 = Ok true).
Proof.
  destruct (bond_matrix_monotone (table := sample_radii) water water_known
              1.5 sample_radii_positive) as (pcr & bm & bm' & Hp & Hb & Hb' & Hm).
  - cbn [water internal bond_factor]. lra.
  - exists pcr, bm, bm'. repeat (split; [assumption|]).
    apply Hm; cbn; lia.
Defined.

Lemma hydroxylamine_central_in_range :
  Forall (Forall (λ i, (i < natoms hydroxylamine)%nat))
         (central_atoms hydroxylamine).
Proof.
  exact (readable_central_in_range hydroxylamine hydroxylamine_readable).
Qed.

Lemma fischer_bond_count_table_hydroxylamine :
  ∃ pcr bond_mat tors,
    get_pair_covalent_radii (table := sample_radii) hydroxylamine = Ok pcr ∧
    bond_matrix hydroxylamine (pdist (coords3d hydroxylamine)) pcr
    = Ok bond_mat ∧
    tors_atom_bonds_loop bond_mat (central_atoms hydroxylamine) = Ok tors ∧
    is_Some (tors !! (0, 1)%nat) ∧ ¬ is_Some (tors !! (1, 0)%nat) ∧
    ∀ v, tors !! (0, 1)%nat = Some v → (-2 <= v <= 6)%Z.
Proof.
  destruct (fischer_bond_count_table (table := sample_radii) hydroxylamine
              hydroxylamine_known hydroxylamine_central_in_range)
    as (pcr & bm & tors & Hp & Hb & Ht & Hdom & Hbounds).
  exists pcr, bm, tors. repeat (split; [assumption|]).
  split; [|split].
  - apply Hdom. exists 2%nat, 4%nat.
    cbn [hydroxylamine internal _prim_coords].
    do 8 apply list_elem_of_further. apply list_elem_of_here.
  - intros (c & d & Hin)%Hdom.
    cbn [hydroxylamine internal _prim_coords] in Hin.
    repeat (apply elem_of_cons in Hin as [Hin|Hin]; [discriminate Hin|]).
    inversion Hin.
  - intros v Hv. exact (Hbounds 0%nat 1%nat v Hv).
Defined.

Lemma first_unknown_element_raises_sample :
  get_pair_covalent_radii (table := sample_radii) with_unknown
  = Raise (KeyError (KStr "xx")) ∧
  fischer_guess (table := sample_radii) with_unknown
  = Raise (KeyError (KStr "xx")) ∧
  lindh_guess (table := sample_radii) with_unknown
  = Raise (KeyError (KStr "xx")) ∧
  swart_guess (table := sample_radii) with_unknown
  = Raise (KeyError (KStr "xx")).
Proof.
  refine (first_unknown_element_raises (table := sample_radii) with_unknown
            [ {| symbol := "O"; position := (0, 0, 0) |} ] []
            {| symbol := "Xx"; position := (1.8, 0, 0) |} eq_refl _ eq_refl).
  apply Forall_cons; split; [eexists; reflexivity|]. apply Forall_nil. done.
Defined.

Lemma water_stretched_well_formed : well_formed water_stretched.
Proof. exact water_well_formed. Qed.

Lemma stretched_bond_is_softer_water :
  Forall (λ guess : Geometry → result (list (list R)),
            ∃ H1 H2, guess water = Ok H1 ∧ guess water_stretched = Ok H2 ∧
                     entry H2 1 1 <= entry H1 1 1)
         [fischer_guess (table := sample_radii);
          lindh_guess (table := sample_radii);
          swart_guess (table := sample_radii)].
Proof.
  refine (stretched_bond_is_softer (table := sample_radii) water
            water_stretched eq_refl water_known water_well_formed
            water_stretched_well_formed 1 1 0 2 sample_radii_positive
            eq_refl eq_refl _).
  unfold distance, atom_at, euclidean.
  cbn [water water_stretched atom_list lookup list_lookup default position].
  apply sqrt_le_1_alt. lra.
Defined.

(** * [fischer_guess] with nan *)

Lemma np_power_nan_nonneg (x y : R) :
  0 <= x → np_power_nan x y = Finite (np_power x y).
Proof.
  intros Hx. unfold np_power_nan. destruct (Rlt_dec x 0); [lra|reflexivity].
Qed.




Lemma diagflat_nan_Finite (v : list R) :
  diagflat_nan (map Finite v) = map (map Finite) (diagflat v).
Proof.
  unfold diagflat_nan, diagflat. rewrite length_map, map_map.
  apply map_ext. intros i. rewrite map_map. apply map_ext. intros j.
  destruct (decide (i = j)); [|reflexivity].
  rewrite lookup_map. destruct (v !! i); reflexivity.
Qed.

Section FischerNan.
Context {table : RadiusTable}.
Variable g : Geometry.
Hypothesis Hknown : known_elements g.

Lemma fischer_primitive_eval_nan (dist_mat pcr_mat : list (list R))
    (tors : gmap (nat * nat) Z) (p : Primitive) :
  (∀ i, (i < natoms g)%nat →
     dist_mat !! i = Some (map (λ j, if decide (i = j) then 0
                                     else distance g i j)
                               (seq 0 (natoms g)))) →
  (∀ i, (i < natoms g)%nat →
     pcr_mat !! i = Some (map (λ j, if decide (i = j) then 0
                                    else pair_cov_radius g i j)
                              (seq 0 (natoms g)))) →
  fischer_readable (natoms g) p →
  (∀ c a b d, inds p = [c; a; b; d] →
     tors !! (a, b) = Some (degree g a + degree g b - 2)%Z) →
  (f ← h_funcs_nan dist_mat pcr_mat tors (length (inds p)); f p)
  = Ok (fischer_value_nan g p).
Proof.
  intros dist_rows pcr_rows Hread Htor.
  assert (Hd : ∀ i j, (i < natoms g)%nat → (j < natoms g)%nat → i ≠ j →
                      getitem2 dist_mat i j = Ok (distance g i j))
    by (apply rhos_getitem2; exact dist_rows).
  assert (Hc : ∀ i j, (i < natoms g)%nat → (j < natoms g)%nat → i ≠ j →
                      getitem2 pcr_mat i j = Ok (pair_cov_radius g i j))
    by (apply rhos_getitem2; exact pcr_rows).
  unfold fischer_readable in Hread. unfold fischer_value_nan.
  destruct (inds p) as [|a [|b [|c [|d [|e l]]]]] eqn:Hp; try done;
    cbn [length h_funcs_nan]; rewrite bind_Ok.
  - destruct Hread as (Ha & Hb & Hne).
    unfold h_bond_nan. rewrite Hp, Hd, Hc by done. reflexivity.
  - destruct Hread as (Hb & Ha & Hc' & Hne1 & Hne2).
    unfold h_bend_nan. rewrite Hp.
    rewrite (Hd b a), (Hd b c), (Hc b a), (Hc b c) by done. reflexivity.
  - destruct Hread as (Hb & Hc' & Hne).
    unfold h_dihedral_nan. rewrite Hp.
    rewrite Hd, Hc by done. rewrite (Htor a b c d eq_refl). reflexivity.
Qed.

(** On readable index tuples the nan-keeping [fischer_guess] returns the
    closed forms with nan kept. *)
Lemma fischer_guess_nan_readable :
  Forall (fischer_readable (natoms g)) (_prim_coords (internal g)) →
  fischer_guess_nan g
  = Ok (diagflat_nan (map (fischer_value_nan g) (_prim_coords (internal g)))).
Proof.
  intros Hread. unfold fischer_guess_nan. cbv zeta.
  rewrite (get_pair_covalent_radii_known g Hknown), bind_Ok.
  destruct (bond_matrix_rows g) as (bm & -> & Hb). rewrite bind_Ok.
  fold (central_atoms g).
  destruct (tors_atom_bonds_loop_spec bm (degree g) (natoms g)
              (bond_rows_sums g bm Hb) (central_atoms g)
              (central_atoms_spec_form g (readable_central_in_range g Hread)))
    as (tors & -> & Htors).
  rewrite bind_Ok.
  destruct (dist_mat_rows g) as (dm & -> & Hd). rewrite bind_Ok.
  destruct (pair_cov_radii_mat_rows g) as (pm & -> & Hp). rewrite bind_Ok.
  rewrite (mapM_Ok _ (fischer_value_nan g)); [reflexivity|].
  apply Forall_forall. intros p Hin.
  apply (fischer_primitive_eval_nan dm pm tors p Hd Hp).
  - exact (proj1 (Forall_forall _ _) Hread p Hin).
  - intros c a b d Hinds. apply Htors. apply central_atoms_elem.
    exists c, a, b, d. split; [reflexivity|].
    destruct p as [l]. cbn [inds] in Hinds. subst l. exact Hin.
Qed.

Lemma well_formed_readable :
  well_formed g →
  Forall (fischer_readable (natoms g)) (_prim_coords (internal g)).
Proof.
  intros Hwf. eapply Forall_impl; [exact Hwf|].
  intros [l] ([Hlo Hhi] & Hrange & Hnodup). unfold fischer_readable.
  cbn [inds] in *.
  destruct l as [|a [|b [|c [|d [|e l]]]]]; cbn [length] in Hlo, Hhi; try lia.
  - apply Forall_cons in Hrange as [Ha [Hb _]%Forall_cons].
    apply NoDup_cons in Hnodup as [Hab _].
    rewrite elem_of_cons, elem_of_nil in Hab. tauto.
  - apply Forall_cons in Hrange as [Ha [Hb [Hc _]%Forall_cons]%Forall_cons].
    apply NoDup_cons in Hnodup as [Hab [Hbc _]%NoDup_cons].
    rewrite !elem_of_cons, elem_of_nil in Hab.
    rewrite elem_of_cons, elem_of_nil in Hbc.
    repeat split; try done; intros ->; tauto.
  - apply Forall_cons in Hrange
      as [Ha [Hb [Hc [Hd _]%Forall_cons]%Forall_cons]%Forall_cons].
    apply NoDup_cons in Hnodup as [_ [Hbc _]%NoDup_cons].
    rewrite !elem_of_cons, elem_of_nil in Hbc. tauto.
Qed.

(** Where numpy stays finite the two embeddings of [fischer_guess] agree:
    with positive radii and bonded central pairs the nan-keeping guess
    returns the entries of the real-valued one, each of them finite. *)
Lemma fischer_guess_nan_agrees :
  well_formed g → radii_positive → central_pairs_bonded g →
  ∃ H, fischer_guess g = Ok H ∧
       fischer_guess_nan g = Ok (map (map Finite) H).
Proof.
  intros Hwf Hpos Hcb. eexists.
  split; [exact (fischer_guess_closed_form g Hknown Hwf)|].
  rewrite (fischer_guess_nan_readable (well_formed_readable Hwf)).
  rewrite <- diagflat_nan_Finite, map_map. do 2 f_equal.
  apply Forall_fmap_ext_1, Forall_forall. intros p Hin.
  pose proof (proj1 (Forall_forall _ _) Hwf p Hin)
    as ([Hlo Hhi] & Hrange & Hnodup).
  destruct p as [l]. unfold fischer_value_nan, fischer_value. cbn [inds] in *.
  destruct l as [|a [|b [|c [|d [|e l]]]]]; try reflexivity.
  - apply Forall_cons in Hrange as [Ha [Hb [Hc _]%Forall_cons]%Forall_cons].
    pose proof (pair_cov_radius_pos g b a Hpos Hknown Hb Ha).
    pose proof (pair_cov_radius_pos g b c Hpos Hknown Hb Hc).
    rewrite np_power_nan_nonneg by nra. reflexivity.
  - apply Forall_cons in Hrange
      as [Ha [Hb [Hc [Hd _]%Forall_cons]%Forall_cons]%Forall_cons].
    pose proof (pair_cov_radius_pos g b c Hpos Hknown Hb Hc).
    pose proof (distance_nonneg g b c).
    assert (Hsum : (0 <= degree g b + degree g c - 2)%Z).
    { rewrite (bond_sum_bonded g b c Hb Hc (Hcb a b c d Hin)).
      pose proof (degree_without_nonneg g b c).
      pose proof (degree_without_nonneg g c b). lia. }
    apply IZR_le in Hsum.
    rewrite !np_power_nan_nonneg by nra. reflexivity.
Qed.
End FischerNan.

(** ** The sample without bonds *)








